(** * Continuum removal by upper convex hull: a shallow embedding

    This development embeds the numerical core of [my_module.py]
    ([left_turn_for_convex_hull], [upper_convex_hull], [lower_convex_hull]
    and [continuum_removal]), its reader of the spectral library and the
    data handling of the viewer [usgs_telescope.py], and checks the
    properties its specification states about them.

    The numerical functions are written over an interface of scalar
    operations and run on [float], the kernel's IEEE 754 binary64 numbers,
    which is what a [numpy.ndarray] of dtype float64 holds.  The general
    properties are proved from a few laws of the comparison and of the
    subtraction, which binary64 is shown to satisfy. *)

From Stdlib Require Import ZArith Floats String Lia.
From stdpp Require Import list strings pretty gmap sorting.

Local Open Scope nat_scope.

(** ** Exceptions and results *)

(** The exceptions the embedded code can raise.  [ValueError] carries the
    message of the [raise] statement; [ZeroDivisionError] is what a scalar
    [/] raises on a zero divisor in a function compiled by [@njit] (whose
    default error model is Python's); [IndexError] stands for an index
    outside an array, which the arrays of this model refuse;
    [LibraryError] stands for an exception that comes out of a call into
    the [spectral] library or [sqlite3] under it, named by its class
    ([OverflowError], [sqlite3.OperationalError], ...). *)
Inductive exn : Type :=
| ValueError (msg : string)
| ZeroDivisionError
| IndexError
| LibraryError (class : string).

Inductive result (A : Type) : Type :=
| Ok (a : A)
| Raise (e : exn).

Arguments Ok {A} a.
Arguments Raise {A} e.

#[export] Instance result_bind : MBind result :=
  fun A B (k : A -> result B) (m : result A) =>
    match m with
    | Ok a => k a
    | Raise e => Raise e
    end.

(** The three messages of the module, under the names the specification
    gives to the failures. *)
Definition ShapeError : exn := ValueError "x and y lenghts must be same"%string.
Definition SizeError : exn := ValueError "x and y lenghts must be grater than 2"%string.
Definition UnsupportedTypeError : exn :=
  ValueError "Only upper convex hull supported with inner x
        values"%string.

(** ** Scalars *)

(** What the code asks of the element type of its arrays. *)
Class Scalar (F : Type) : Type := {
  fadd : F -> F -> F;
  fsub : F -> F -> F;
  fmul : F -> F -> F;
  (** [fdiv] is the division of array expressions ([y/c], the slopes of
      [np.interp]), which never raises *)
  fdiv : F -> F -> F;
  flt : F -> F -> bool;
  fle : F -> F -> bool;
  feq : F -> F -> bool;
  fisnan : F -> bool;
  fzero : F;
  (** the value [np.full((n,), np.nan)] fills with *)
  fnan : F
}.

#[export] Instance float_scalar : Scalar float := {|
  fadd := PrimFloat.add;
  fsub := PrimFloat.sub;
  fmul := PrimFloat.mul;
  fdiv := PrimFloat.div;
  flt := PrimFloat.ltb;
  fle := PrimFloat.leb;
  feq := PrimFloat.eqb;
  fisnan := PrimFloat.is_nan;
  fzero := PrimFloat.zero;
  fnan := PrimFloat.nan
|}.

Section Code.

Context {F : Type} `{Scalar F}.

(** ** Arrays *)

(** [a[i]] for [0 <= i]. *)
Definition getitem (a : list F) (i : nat) : result F :=
  match a !! i with
  | Some v => Ok v
  | None => Raise IndexError
  end.

(** [a[i] = v] on a preallocated array. *)
Definition setitem (a : list F) (i : nat) (v : F) : result (list F) :=
  if decide (i < length a) then Ok (<[i:=v]> a) else Raise IndexError.

(** [a[flag]] for a boolean mask [flag]. *)
Fixpoint mask_select (flag : list bool) (a : list F) : result (list F) :=
  match flag, a with
  | [], [] => Ok []
  | b :: flag', v :: a' =>
      r ← mask_select flag' a';
      Ok (if b then v :: r else r)
  | _, _ => Raise IndexError
  end.

(** ** The turn predicate *)

(** A scalar [a / b] under [@njit]: with the decorator's default error
    model a zero divisor raises, where the division of arrays ([fdiv])
    follows IEEE 754. *)
Definition scalar_div (a b : F) : result F :=
  if feq b fzero then Raise ZeroDivisionError else Ok (fdiv a b).

Definition left_turn_for_convex_hull (x1 y1 x2 y2 x3 y3 : F) : result bool :=
  slope1 ← scalar_div (fsub y2 y1) (fsub x2 x1);
  slope2 ← scalar_div (fsub y3 y2) (fsub x3 x2);
  let left_turn_flag := flt slope1 slope2 in
  Ok left_turn_flag.

(** ** The hull builders *)

(** The [while] loop of the builders: [nh] only decreases, so the loop is
    a recursion on [nh].  [pop_on] is the identity in [upper_convex_hull]
    and [not] in [lower_convex_hull]; the two functions differ in nothing
    else. *)
Fixpoint pop_while (pop_on : bool -> bool) (x y hullx hully : list F)
    (i nh : nat) : result nat :=
  match nh with
  | S (S k as nh') =>
      x1 ← getitem hullx k;
      y1 ← getitem hully k;
      x2 ← getitem hullx (S k);
      y2 ← getitem hully (S k);
      x3 ← getitem x i;
      y3 ← getitem y i;
      t ← left_turn_for_convex_hull x1 y1 x2 y2 x3 y3;
      if pop_on t then pop_while pop_on x y hullx hully i nh' else Ok nh
  | _ => Ok nh
  end.

(** The state of the [for] loop: the two preallocated arrays and the hull
    size. *)
Record hull_state : Type := HullState {
  st_hullx : list F;
  st_hully : list F;
  st_nh : nat
}.

(** One iteration of the [for] loop. *)
Definition hull_step (pop_on : bool -> bool) (x y : list F)
    (st : hull_state) (i : nat) : result hull_state :=
  nh ← pop_while pop_on x y (st_hullx st) (st_hully st) i (st_nh st);
  xi ← getitem x i;
  hullx ← setitem (st_hullx st) nh xi;
  yi ← getitem y i;
  hully ← setitem (st_hully st) nh yi;
  Ok (HullState hullx hully (S nh)).

(** [for i in idx: st = body(st, i)]. *)
Fixpoint for_each (body : hull_state -> nat -> result hull_state)
    (st : hull_state) (idx : list nat) : result hull_state :=
  match idx with
  | [] => Ok st
  | i :: idx' => st' ← body st i; for_each body st' idx'
  end.

(** The state on entry to the [for] loop. *)
Definition hull_init (x y : list F) : result hull_state :=
  let n := length x in
  let hullx := replicate n fnan in
  let hully := replicate n fnan in
  x0 ← getitem x 0;
  y0 ← getitem y 0;
  hullx ← setitem hullx 0 x0;
  hully ← setitem hully 0 y0;
  x1 ← getitem x 1;
  y1 ← getitem y 1;
  hullx ← setitem hullx 1 x1;
  hully ← setitem hully 1 y1;
  Ok (HullState hullx hully 2).

(** The loop run over [range(2, k)]. *)
Definition hull_loop (pop_on : bool -> bool) (x y : list F) (k : nat)
    : result hull_state :=
  st ← hull_init x y;
  for_each (hull_step pop_on x y) st (seq 2 (k - 2)).

Definition convex_hull (pop_on : bool -> bool) (x y : list F)
    : result (list F * list F) :=
  let n := length x in
  if negb (n =? length y) then Raise ShapeError
  else if n <=? 2 then Raise SizeError
  else
    st ← hull_loop pop_on x y n;
    Ok (take (st_nh st) (st_hullx st), take (st_nh st) (st_hully st)).

Definition upper_convex_hull : list F -> list F -> result (list F * list F) :=
  convex_hull (fun left_turn => left_turn).

Definition lower_convex_hull : list F -> list F -> result (list F * list F) :=
  convex_hull negb.

(** ** [np.interp] *)

(** The interval search of [np.interp]: the last [j] with [xp[j] <= v],
    given [xp[0] <= v]; written as the left-to-right scan the library runs
    on short arrays (its bisection finds the same index on increasing
    [xp]). *)
Fixpoint interp_search (v : F) (xp : list F) (i : nat) (fuel : nat) : nat :=
  match fuel with
  | 0 => i - 1
  | S fuel' =>
      match xp !! i with
      | Some a => if fle a v then interp_search v xp (S i) fuel' else i - 1
      | None => i - 1
      end
  end.

(** [np.interp] at one abscissa, for [len(xp) >= 2]. *)
Definition interp_at (xp fp : list F) (v : F) : result F :=
  let n := length xp in
  if fisnan v then Ok v
  else
    lval ← getitem fp 0;
    rval ← getitem fp (n - 1);
    x_first ← getitem xp 0;
    x_last ← getitem xp (n - 1);
    if flt x_last v then Ok rval
    else if flt v x_first then Ok lval
    else
      let j := interp_search v xp 1 n in
      if j =? n - 1 then getitem fp j
      else
        xj ← getitem xp j;
        yj ← getitem fp j;
        if feq xj v then Ok yj
        else
          xj1 ← getitem xp (S j);
          yj1 ← getitem fp (S j);
          let slope := fdiv (fsub yj1 yj) (fsub xj1 xj) in
          let r := fadd (fmul slope (fsub v xj)) yj in
          if fisnan r then
            let r' := fadd (fmul slope (fsub v xj1)) yj1 in
            if fisnan r' && feq yj yj1 then Ok yj else Ok r'
          else Ok r.

Fixpoint interp (x xp fp : list F) : result (list F) :=
  match x with
  | [] => Ok []
  | v :: x' =>
      c ← interp_at xp fp v;
      cs ← interp x' xp fp;
      Ok (c :: cs)
  end.

(** ** The pipeline *)

(** The mask [(x_min <= x) * (x <= x_max)]. *)
Definition window_flag (x_min x_max : F) (x : list F) : list bool :=
  zip_with andb (map (fun v => fle x_min v) x) (map (fun v => fle v x_max) x).

Definition continuum_removal (x y : list F) (continuum_type : string)
    (left_outer_x left_inner_x right_inner_x right_outer_x : F)
    : result (list F * list F * list F) :=
  if String.eqb continuum_type "uh"%string then
    let x_min := left_inner_x in
    let x_max := right_inner_x in
    let flag := window_flag x_min x_max x in
    x ← mask_select flag x;
    y ← mask_select flag y;
    '(hullx, hully) ← upper_convex_hull x y;
    c ← interp x hullx hully;
    let Cy := zip_with fdiv y c in
    Ok (x, Cy, c)
  else Raise UnsupportedTypeError.

End Code.

(** ** The spectral library *)

(** A row of the [Samples] table as the queries select it: [LibName],
    [SampleID], [Description], [Spectrometer]. *)
Record sample_row : Type := SampleRow {
  row_lib_name : string;
  row_sample_id : Z;
  row_description : string;
  row_spectrometer : string
}.

(** The calls [get_usgs_splib07a_spectrum] makes into the library:
    [spectral.USGSDatabase(library_path)], [db.query] with its rows read
    (by description, by sample id, for the bandpass of a spectrometer),
    [db.get_spectrum] and [array_from_blob]. *)
Inductive library_call : Type :=
| OpenLibrary
| QueryDescription (search_str : string)
| QuerySampleID (SampleID : Z)
| GetSpectrum (SampleID : Z)
| QueryBandpass (Spectrometer : string)
| ArrayFromBlob (Spectrometer : string).

(** What [get_usgs_splib07a_spectrum] meets in the library (a
    [spectral.USGSDatabase]): the calls that raise, each with what it
    raises, and what the others answer: the rows of the query by
    description, the rows of the query by sample id, the spectrum of a
    sample, and the bandpass arrays stored for a spectrometer (each as
    [array_from_blob] decodes it). *)
Record usgs_database : Type := UsgsDatabase {
  library_raises : library_call -> option exn;
  samples_like : string -> list sample_row;
  samples_with_id : Z -> list sample_row;
  db_get_spectrum : Z -> list float * list float;
  bandpass_rows : string -> list (list float)
}.

(** What the function returns, and the warning it emits on the way, if
    any. *)
Record library_spectrum : Type := LibrarySpectrum {
  sp_x : list float;
  sp_y : list float;
  sp_fwhm : list float;
  sp_description : string;
  sp_sample_id : Z;
  sp_lib_name : string;
  sp_warning : option string
}.

Definition WrongArguments : exn :=
  ValueError "Wrong arguments for getting library spectrum"%string.

(** A call into the library: it raises, or returns its answer. *)
Definition called {A : Type} (db : usgs_database) (c : library_call)
    (answer : A) : result A :=
  match library_raises db c with
  | Some e => Raise e
  | None => Ok answer
  end.

(** [list(query)[0]]. *)
Definition first_row (rows : list sample_row) : result sample_row :=
  match rows with
  | row :: _ => Ok row
  | [] => Raise IndexError
  end.

Definition get_usgs_splib07a_spectrum (db : usgs_database)
    (search_str : string) (SampleID : option Z) : result library_spectrum :=
  if (String.length search_str =? 0)
     && match SampleID with None => true | Some _ => false end
  then Raise WrongArguments
  else
    _ ← called db OpenLibrary tt;
    '(lib_name, SampleID, Description, Spectrometer) ←
      match SampleID with
      | None =>
          query ← called db (QueryDescription search_str)
                    (samples_like db search_str);
          first_result ← first_row query;
          Ok (row_lib_name first_result, row_sample_id first_result,
              row_description first_result, row_spectrometer first_result)
      | Some SampleID =>
          query ← called db (QuerySampleID SampleID)
                    (samples_with_id db SampleID);
          first_result ← first_row query;
          Ok (row_lib_name first_result, SampleID,
              row_description first_result, row_spectrometer first_result)
      end;
    '(x, y) ← called db (GetSpectrum SampleID) (db_get_spectrum db SampleID);
    let flag := map (fun v => PrimFloat.ltb 0 v) y in
    x ← mask_select flag x;
    y ← mask_select flag y;
    rows ← called db (QueryBandpass Spectrometer)
             (bandpass_rows db Spectrometer);
    match rows with
    | blob :: _ =>
        fwhm ← called db (ArrayFromBlob Spectrometer) blob;
        fwhm ← mask_select flag fwhm;
        Ok (LibrarySpectrum x y fwhm Description SampleID lib_name None)
    | [] =>
        let warning :=
          ("Bandpass not found for " ++ Description ++ " in " ++ lib_name)%string in
        let fwhm := replicate (length x) nan in
        Ok (LibrarySpectrum x y fwhm Description SampleID lib_name
              (Some warning))
    end.

(** ** The viewer *)

(** [usgs_telescope.py], [_load_database]: the text the list shows for a
    row, [f"{description} {lib_name} {sample_id}"]. *)
Definition entry_text (row : sample_row) : string :=
  row_description row +:+ " " +:+ row_lib_name row +:+ " "
  +:+ pretty (row_sample_id row).

(** The order [entries.sort()] puts the texts in. *)
Definition string_le (s1 s2 : string) : Prop := String.leb s1 s2 = true.

#[export] Instance string_le_dec : RelDecision string_le :=
  fun s1 s2 => decide (String.leb s1 s2 = true).

(** [_load_database], from the rows of its query on: the list [entries]
    and the dictionary [sample_ids] it leaves in the viewer. *)
Definition load_database (query_results : list sample_row)
    : list string * gmap string Z :=
  let '(entries, sample_ids) :=
    foldl (fun (acc : list string * gmap string Z) row =>
             let entry_text := entry_text row in
             (acc.1 ++ [entry_text],
              <[entry_text := row_sample_id row]> acc.2))
      ([], ∅) query_results in
  (merge_sort string_le entries, sample_ids).

(** [usgs_telescope.py], [_load_and_plot_spectrum]: the part of a spectrum
    with [y >= 0], which the viewer keeps as its current spectrum. *)
Definition nonnegative_part (x y : list float)
    : result (list float * list float) :=
  let flag := map (fun v => PrimFloat.leb 0 v) y in
  x ← mask_select flag x;
  y ← mask_select flag y;
  Ok (x, y).

(** ** The hull as a stack of positions *)

(** The builders move values between arrays; which input point each hull
    slot holds is left implicit.  The definitions of this section run the
    same loop on the positions themselves: a stack of indices into [x] and
    [y], topmost (latest) hull point first.  [hull_loop_chain] relates the
    two. *)
Section Chain.

Context {F : Type} `{Scalar F}.
Variable pop_on : bool -> bool.
Variables x y : list F.

(** The test of the [while] loop at the hull points of positions [r] (last
    but one) and [q] (last) and the upcoming point [i]. *)
Definition turn (r q i : nat) : result bool :=
  x1 ← getitem x r;
  y1 ← getitem y r;
  x2 ← getitem x q;
  y2 ← getitem y q;
  x3 ← getitem x i;
  y3 ← getitem y i;
  t ← left_turn_for_convex_hull x1 y1 x2 y2 x3 y3;
  Ok (pop_on t).

Fixpoint chain_pop (s : list nat) (i : nat) : result (list nat) :=
  match s with
  | q :: ((r :: _) as s') =>
      b ← turn r q i;
      if b : bool then chain_pop s' i else Ok s
  | _ => Ok s
  end.

Definition chain_step (s : list nat) (i : nat) : result (list nat) :=
  s' ← chain_pop s i;
  Ok (i :: s').

Fixpoint chain_each (s : list nat) (idx : list nat) : result (list nat) :=
  match idx with
  | [] => Ok s
  | i :: idx' => s' ← chain_step s i; chain_each s' idx'
  end.

Definition chain (k : nat) : result (list nat) :=
  chain_each [1; 0] (seq 2 (k - 2)).

(** A stack of positions with top [q]: strictly descending, down to
    position [0]. *)
Inductive stack_upto : nat -> list nat -> Prop :=
| stack_bottom : stack_upto 0 [0]
| stack_cons q r s : r < q -> stack_upto r s -> stack_upto q (q :: s).

(** The slots of two arrays that a stack [s] names hold its points, bottom
    first. *)
Definition holds (s : list nat) (hullx hully : list F) : Prop :=
  forall k j : nat, reverse s !! k = Some j ->
    hullx !! k = x !! j /\ hully !! k = y !! j.

(** The arrays of a state hold the points of the stack [s] in their first
    [nh] slots. *)
Definition represents (s : list nat) (st : hull_state) : Prop :=
  st_nh st = length s /\
  length (st_hullx st) = length x /\
  length (st_hully st) = length x /\
  holds s (st_hullx st) (st_hully st).

End Chain.

(** ** Valid inputs *)

(** [x] strictly increasing, as the builders compare: each element [<] the
    next. *)
Fixpoint increasing {F : Type} `{Scalar F} (x : list F) : bool :=
  match x with
  | a :: ((b :: _) as x') => flt a b && increasing x'
  | _ => true
  end.

(** The preconditions of a hull operation. *)
Definition valid_input {F : Type} `{Scalar F} (x y : list F) : Prop :=
  length x = length y /\ 2 < length x /\ increasing x = true.

(** What the proofs use of the comparison and the subtraction.  Binary64
    has these properties ([float_laws]): there the difference of two
    distinct numbers is never rounded to zero. *)
Class ScalarLaws (F : Type) `{Scalar F} : Prop := {
  flt_trans : forall a b c : F, flt a b = true -> flt b c = true -> flt a c = true;
  flt_irrefl : forall a : F, flt a a = false;
  feq_not_flt : forall a b : F, feq a b = true -> flt a b = false;
  fsub_lt_nonzero : forall a b : F, flt a b = true -> feq (fsub b a) fzero = false
}.

(** How the comparisons agree on numbers that compare at all (a NaN
    compares with nothing); binary64 complies ([float_order]). *)
Class ScalarOrder (F : Type) `{Scalar F} : Prop := {
  flt_fle : forall a b : F, flt a b = true -> fle a b = true;
  flt_not_fle : forall a b : F, flt a b = true -> fle b a = false;
  flt_compares : forall a b : F, flt a b = true ->
    (feq a a = true /\ fle a a = true /\ fisnan a = false)
    /\ (feq b b = true /\ fle b b = true /\ fisnan b = false)
}.

(** Three points are collinear, as the turn predicate measures it: the two
    slopes it computes compare equal. *)
Definition collinear3 {F : Type} `{Scalar F} (x0 y0 x1 y1 x2 y2 : F) : Prop :=
  feq (fdiv (fsub y1 y0) (fsub x1 x0)) (fdiv (fsub y2 y1) (fsub x2 x1)) = true.


(** ** What the properties are stated with *)

(** Positions in strictly increasing order. *)
Definition ascending (idx : list nat) : Prop :=
  forall a b i j : nat, a < b -> idx !! a = Some i -> idx !! b = Some j -> i < j.

(** The hull [(hx, hy)] is made of the points of [(x, y)] at the positions
    [idx]. *)
Definition points_at {F : Type} (x y : list F) (idx : list nat)
    (hx hy : list F) : Prop :=
  Forall2 (fun j v => x !! j = Some v) idx hx
  /\ Forall2 (fun j v => y !! j = Some v) idx hy.

(** What a computation may raise. *)
Definition raises_only {A : Type} (P : exn -> Prop) (m : result A) : Prop :=
  match m with
  | Ok _ => True
  | Raise e => P e
  end.

(** The failures of the arithmetic and of the indexing. *)
Definition arith_or_index (e : exn) : Prop :=
  e = ZeroDivisionError \/ e = IndexError.

(** What [get_usgs_splib07a_spectrum] may raise past its check of the
    arguments: the exception of a call into the library, or an
    [IndexError] of its own indexing. *)
Definition index_or_library (db : usgs_database) (e : exn) : Prop :=
  e = IndexError \/ exists c : library_call, library_raises db c = Some e.

(** [left_inner <= v <= right_inner]. *)
Definition in_window {F : Type} `{Scalar F} (x_min x_max : F) (v : F) : bool :=
  fle x_min v && fle v x_max.

(** Every three neighbours of the stack fail the [while] test of the
    builder: no point of it is left to pop. *)
Fixpoint settled {F : Type} `{Scalar F} (pop_on : bool -> bool)
    (x y : list F) (s : list nat) : Prop :=
  match s with
  | p :: s' =>
      match s' with
      | q :: r :: _ => turn pop_on x y r q p = Ok false
      | _ => True
      end /\ settled pop_on x y s'
  | [] => True
  end.

(** The [while] test of a builder discarded the point of position [k]: it
    answered "pop" for this point between an input point before it and an
    input point after it. *)
Definition discarded {F : Type} `{Scalar F} (pop_on : bool -> bool)
    (x y : list F) (k : nat) : Prop :=
  exists r i : nat, r < k < i /\ turn pop_on x y r k i = Ok true.

(** The turn predicate answers [b] at every three consecutive points of
    the chain [(hx, hy)]. *)
Definition chain_turns {F : Type} `{Scalar F} (b : bool) (hx hy : list F)
    : Prop :=
  forall (k : nat) (x1 y1 x2 y2 x3 y3 : F),
    hx !! k = Some x1 -> hy !! k = Some y1 ->
    hx !! S k = Some x2 -> hy !! S k = Some y2 ->
    hx !! S (S k) = Some x3 -> hy !! S (S k) = Some y3 ->
    left_turn_for_convex_hull x1 y1 x2 y2 x3 y3 = Ok b.

(** The spectrum of the scenarios of the specification, on binary64. *)

Local Open Scope float_scope.

Definition scenario_x : list float := [0; 1; 2; 3; 4].
Definition scenario_y : list float := [0; 2; 1; 2; 0].

Local Close Scope float_scope.

(** ** The error monad and the arrays *)

Lemma bind_Ok {A B : Type} (a : A) (k : A -> result B) : (Ok a ≫= k) = k a.
Proof. reflexivity. Qed.

Lemma bind_Raise {A B : Type} (e : exn) (k : A -> result B) :
  (Raise e ≫= k) = Raise e.
Proof. reflexivity. Qed.

Lemma bind_Ok_inv {A B : Type} (m : result A) (k : A -> result B) (b : B) :
  (m ≫= k) = Ok b -> exists a, m = Ok a /\ k a = Ok b.
Proof. destruct m as [a|e]; [eauto | discriminate]. Qed.

Ltac monad_simpl := rewrite ?bind_Ok, ?bind_Raise.

Section Arrays.

Context {F : Type} `{Scalar F}.

Lemma getitem_Some (a : list F) (i : nat) (v : F) :
  a !! i = Some v -> getitem a i = Ok v.
Proof. unfold getitem. now intros ->. Qed.

Lemma getitem_Ok_inv (a : list F) (i : nat) (v : F) :
  getitem a i = Ok v -> a !! i = Some v.
Proof. unfold getitem. destruct (a !! i); congruence. Qed.

Lemma getitem_lt (a : list F) (i : nat) :
  i < length a -> exists v, a !! i = Some v /\ getitem a i = Ok v.
Proof.
  intros Hi. destruct (lookup_lt_is_Some_2 a i Hi) as [v Hv].
  exists v. split; [assumption | now apply getitem_Some].
Qed.

Lemma getitem_ext (a b : list F) (i j : nat) :
  a !! i = b !! j -> getitem a i = getitem b j.
Proof. unfold getitem. now intros ->. Qed.

Lemma setitem_lt (a : list F) (i : nat) (v : F) :
  i < length a -> setitem a i v = Ok (<[i:=v]> a).
Proof. intros Hi. unfold setitem. now rewrite decide_True. Qed.

End Arrays.

(** ** The builders run the stack of positions *)

Section ChainFacts.

Context {F : Type} `{Scalar F}.
Variable pop_on : bool -> bool.
Variables x y : list F.

Lemma stack_upto_head (q : nat) (s : list nat) :
  stack_upto q s -> exists t, s = q :: t.
Proof. destruct 1; eauto. Qed.

Lemma stack_upto_length (q : nat) (s : list nat) :
  stack_upto q s -> 1 <= length s <= S q.
Proof. induction 1; simpl; lia. Qed.

Lemma stack_upto_bound (q : nat) (s : list nat) :
  stack_upto q s -> Forall (fun j => j <= q) s.
Proof.
  induction 1 as [|q r s Hrq _ IH]; constructor; try lia; try constructor.
  eapply Forall_impl; [exact IH | simpl; lia].
Qed.

Lemma stack_upto_last (q : nat) (s : list nat) :
  stack_upto q s -> last s = Some 0.
Proof.
  induction 1 as [|q r s _ Hs IH]; [reflexivity |].
  destruct (stack_upto_head _ _ Hs) as [t ->]. exact IH.
Qed.

Lemma stack_upto_ascending (q : nat) (s : list nat) :
  stack_upto q s -> ascending (reverse s).
Proof.
  induction 1 as [|q r s Hrq Hs IH]; intros a b i j Hab Ha Hb.
  - apply lookup_lt_Some in Hb. simpl in Hb. lia.
  - rewrite reverse_cons in Ha, Hb.
    assert (a < length (reverse s)) as Hlt.
    { apply lookup_lt_Some in Hb. rewrite length_app in Hb. simpl in Hb. lia. }
    rewrite lookup_app_l in Ha by assumption.
    destruct (decide (b < length (reverse s))) as [Hb'|Hb'].
    + rewrite lookup_app_l in Hb by assumption. exact (IH a b i j Hab Ha Hb).
    + rewrite lookup_app_r in Hb by lia.
      destruct (b - length (reverse s)) as [|]; [|discriminate].
      injection Hb as <-.
      pose proof (stack_upto_bound _ _ Hs) as Hall.
      rewrite Forall_lookup in Hall.
      apply reverse_lookup_Some in Ha as [Ha _].
      specialize (Hall _ _ Ha). simpl in Hall. lia.
Qed.

Lemma holds_pop (q : nat) (s : list nat) (hullx hully : list F) :
  holds x y (q :: s) hullx hully -> holds x y s hullx hully.
Proof.
  intros Hh k j Hk. apply Hh. rewrite reverse_cons.
  now apply lookup_app_l_Some.
Qed.

Lemma holds_top (q : nat) (s : list nat) (hullx hully : list F) :
  holds x y (q :: s) hullx hully ->
  hullx !! length s = x !! q /\ hully !! length s = y !! q.
Proof.
  intros Hh. apply Hh. rewrite reverse_cons.
  rewrite lookup_app_r by (rewrite length_reverse; lia).
  rewrite length_reverse, Nat.sub_diag. reflexivity.
Qed.

Lemma holds_push (i : nat) (s : list nat) (hullx hully : list F) (xi yi : F) :
  holds x y s hullx hully ->
  length s < length hullx -> length s < length hully ->
  x !! i = Some xi -> y !! i = Some yi ->
  holds x y (i :: s) (<[length s:=xi]> hullx) (<[length s:=yi]> hully).
Proof.
  intros Hh Hx Hy Hxi Hyi k j Hk. rewrite reverse_cons in Hk.
  destruct (decide (k < length s)) as [Hlt|Hge].
  - rewrite lookup_app_l in Hk by (rewrite length_reverse; lia).
    rewrite !list_lookup_insert_ne by lia. now apply Hh.
  - assert (k = length s) as ->.
    { apply lookup_lt_Some in Hk. rewrite length_app, length_reverse in Hk.
      simpl in Hk. lia. }
    rewrite lookup_app_r in Hk by (rewrite length_reverse; lia).
    rewrite length_reverse, Nat.sub_diag in Hk. injection Hk as <-.
    rewrite !list_lookup_insert_eq by lia. now rewrite Hxi, Hyi.
Qed.

Lemma pop_while_unfold (hullx hully : list F) (i k : nat) :
  pop_while pop_on x y hullx hully i (S (S k))
  = (x1 ← getitem hullx k;
     y1 ← getitem hully k;
     x2 ← getitem hullx (S k);
     y2 ← getitem hully (S k);
     x3 ← getitem x i;
     y3 ← getitem y i;
     t ← left_turn_for_convex_hull x1 y1 x2 y2 x3 y3;
     if pop_on t then pop_while pop_on x y hullx hully i (S k)
     else Ok (S (S k))).
Proof. reflexivity. Qed.

Lemma chain_pop_unfold (q r : nat) (t : list nat) (i : nat) :
  chain_pop pop_on x y (q :: r :: t) i
  = (b ← turn pop_on x y r q i;
     if b : bool then chain_pop pop_on x y (r :: t) i else Ok (q :: r :: t)).
Proof. reflexivity. Qed.

(** The [while] loop of the builders pops the stack as [chain_pop] does. *)
Lemma pop_while_chain (i : nat) (hullx hully : list F) (s : list nat) :
  holds x y s hullx hully ->
  pop_while pop_on x y hullx hully i (length s)
  = (s' ← chain_pop pop_on x y s i; Ok (length s')).
Proof.
  induction s as [|q [|r t] IH]; intros Hh; [reflexivity | reflexivity |].
  change (length (q :: r :: t)) with (S (S (length t))).
  rewrite pop_while_unfold, chain_pop_unfold.
  destruct (holds_top _ _ _ _ Hh) as [Hxq Hyq].
  destruct (holds_top _ _ _ _ (holds_pop _ _ _ _ Hh)) as [Hxr Hyr].
  simpl length in Hxq, Hyq.
  unfold turn.
  rewrite (getitem_ext _ _ _ _ Hxr), (getitem_ext _ _ _ _ Hyr).
  rewrite (getitem_ext _ _ _ _ Hxq), (getitem_ext _ _ _ _ Hyq).
  destruct (getitem x r) as [x1|]; [|reflexivity].
  destruct (getitem y r) as [y1|]; [|reflexivity].
  destruct (getitem x q) as [x2|]; [|reflexivity].
  destruct (getitem y q) as [y2|]; [|reflexivity].
  destruct (getitem x i) as [x3|]; [|reflexivity].
  destruct (getitem y i) as [y3|]; [|reflexivity].
  monad_simpl.
  destruct (left_turn_for_convex_hull x1 y1 x2 y2 x3 y3) as [b|]; [|reflexivity].
  monad_simpl.
  destruct (pop_on b); [|reflexivity].
  apply (IH (holds_pop _ _ _ _ Hh)).
Qed.

Lemma holds_suffix (l s : list nat) (hullx hully : list F) :
  holds x y (l ++ s) hullx hully -> holds x y s hullx hully.
Proof.
  induction l as [|q l IH]; [trivial |].
  intros Hh. apply IH. exact (holds_pop _ _ _ _ Hh).
Qed.

(** Popping leaves a stack, down to position [0], that is the lower part
    of the one before. *)
Lemma chain_pop_stack (i q : nat) (s s' : list nat) :
  stack_upto q s -> chain_pop pop_on x y s i = Ok s' ->
  exists q' l, q' <= q /\ stack_upto q' s' /\ s = l ++ s'.
Proof.
  intros Hs. revert s'.
  induction Hs as [|q r s Hrq Hs IH]; intros s' Hpop.
  - injection Hpop as <-. exists 0, []. repeat split; [lia | constructor].
  - destruct (stack_upto_head _ _ Hs) as [t ->].
    rewrite chain_pop_unfold in Hpop.
    apply bind_Ok_inv in Hpop as ([|] & _ & Hpop).
    + destruct (IH _ Hpop) as (q' & l & Hq' & Hs' & Heq).
      exists q', (q :: l). repeat split; [lia | assumption |].
      simpl. now rewrite <- Heq.
    + injection Hpop as <-. exists q, []. repeat split; [lia |].
      now apply (stack_cons q r).
Qed.

Lemma chain_step_stack (i q : nat) (s s2 : list nat) :
  stack_upto q s -> q < i -> chain_step pop_on x y s i = Ok s2 ->
  stack_upto i s2 /\ 2 <= length s2.
Proof.
  intros Hs Hqi Hstep. unfold chain_step in Hstep.
  apply bind_Ok_inv in Hstep as (s' & Hpop & Hstep). injection Hstep as <-.
  destruct (chain_pop_stack _ _ _ _ Hs Hpop) as (q' & l & Hq' & Hs' & _).
  split; [apply stack_cons with q'; [lia | assumption] |].
  apply stack_upto_length in Hs'. simpl. lia.
Qed.

Hypothesis Hlen : length x = length y.

(** One iteration of the [for] loop pushes position [i] as [chain_step]
    does, and fails where it fails. *)
Lemma hull_step_chain (i q : nat) (s : list nat) (st : hull_state) :
  represents x y s st -> stack_upto q s -> q < i -> i < length x ->
  match chain_step pop_on x y s i with
  | Ok s2 => exists st2,
      hull_step pop_on x y st i = Ok st2 /\ represents x y s2 st2
  | Raise e => hull_step pop_on x y st i = Raise e
  end.
Proof.
  intros (Hnh & Hlx & Hly & Hh) Hs Hqi Hi.
  unfold hull_step, chain_step. rewrite Hnh, (pop_while_chain _ _ _ _ Hh).
  destruct (chain_pop pop_on x y s i) as [s'|e] eqn:Hpop; [|reflexivity].
  monad_simpl.
  destruct (chain_pop_stack _ _ _ _ Hs Hpop) as (q' & l & Hq' & Hs' & Heq).
  apply stack_upto_length in Hs'.
  destruct (getitem_lt x i Hi) as (xi & Hxi & ->).
  destruct (getitem_lt y i ltac:(lia)) as (yi & Hyi & ->).
  monad_simpl.
  rewrite setitem_lt by lia. monad_simpl.
  rewrite setitem_lt by lia. monad_simpl.
  eexists. split; [reflexivity |].
  refine (conj _ (conj _ (conj _ _))); simpl;
    rewrite ?length_insert; try assumption; try reflexivity.
  apply (holds_push i s' _ _ xi yi); try assumption; try lia.
  apply (holds_suffix l). rewrite <- Heq. exact Hh.
Qed.

Lemma for_each_chain (m q : nat) (s : list nat) (st : hull_state) :
  represents x y s st -> stack_upto q s -> S q + m <= length x ->
  match chain_each pop_on x y s (seq (S q) m) with
  | Ok s2 => exists st2,
      for_each (hull_step pop_on x y) st (seq (S q) m) = Ok st2
      /\ represents x y s2 st2 /\ stack_upto (q + m) s2
  | Raise e => for_each (hull_step pop_on x y) st (seq (S q) m) = Raise e
  end.
Proof.
  revert q s st. induction m as [|m IH]; intros q s st Hrep Hs Hle.
  - simpl. exists st. rewrite Nat.add_0_r. auto.
  - cbn [seq chain_each for_each].
    pose proof (hull_step_chain (S q) q s st Hrep Hs) as Hstep.
    destruct (chain_step pop_on x y s (S q)) as [s1|e] eqn:Hc.
    + destruct Hstep as (st1 & -> & Hrep1); [lia | lia |].
      monad_simpl.
      destruct (chain_step_stack _ _ _ _ Hs (Nat.lt_succ_diag_r q) Hc) as [Hs1 _].
      specialize (IH (S q) s1 st1 Hrep1 Hs1 ltac:(lia)).
      replace (q + S m) with (S q + m) by lia. exact IH.
    + rewrite Hstep by lia. reflexivity.
Qed.

Lemma hull_init_represents :
  2 <= length x ->
  exists st, hull_init x y = Ok st /\ represents x y [1; 0] st.
Proof.
  intros Hn. unfold hull_init.
  destruct (getitem_lt x 0 ltac:(lia)) as (x0 & Hx0 & ->).
  destruct (getitem_lt y 0 ltac:(lia)) as (y0 & Hy0 & ->).
  monad_simpl.
  rewrite !setitem_lt by (rewrite length_replicate; lia). monad_simpl.
  destruct (getitem_lt x 1 ltac:(lia)) as (x1 & Hx1 & ->).
  destruct (getitem_lt y 1 ltac:(lia)) as (y1 & Hy1 & ->).
  monad_simpl.
  rewrite !setitem_lt by (rewrite length_insert, length_replicate; lia).
  monad_simpl.
  eexists. split; [reflexivity |].
  refine (conj _ (conj _ (conj _ _))); simpl;
    rewrite ?length_insert, ?length_replicate; try lia; try reflexivity.
  change (reverse [1; 0]) with [0; 1].
  intros [|[|k]] j Hk; simpl in Hk; try discriminate; injection Hk as <-.
  - rewrite !(list_lookup_insert_ne _ 1 0) by lia.
    rewrite !list_lookup_insert_eq by (rewrite length_replicate; lia).
    now rewrite Hx0, Hy0.
  - rewrite !list_lookup_insert_eq
      by (rewrite length_insert, length_replicate; lia).
    now rewrite Hx1, Hy1.
Qed.

(** The refinement: run over [range(2, k)], the loop of the builders ends
    in a state whose arrays hold the points of the stack [chain k], and it
    raises what [chain k] raises. *)
Lemma hull_loop_chain (k : nat) :
  2 <= k <= length x ->
  match chain pop_on x y k with
  | Ok s => exists st,
      hull_loop pop_on x y k = Ok st
      /\ represents x y s st /\ stack_upto (k - 1) s
  | Raise e => hull_loop pop_on x y k = Raise e
  end.
Proof.
  intros Hk. unfold chain, hull_loop.
  destruct hull_init_represents as (st0 & -> & Hrep0); [lia |].
  monad_simpl.
  assert (stack_upto 1 [1; 0]) as Hs0
    by (apply (stack_cons 1 0); [lia | constructor]).
  pose proof (for_each_chain (k - 2) 1 [1; 0] st0 Hrep0 Hs0 ltac:(lia)) as Hloop.
  replace (1 + (k - 2)) with (k - 1) in Hloop by lia.
  exact Hloop.
Qed.

End ChainFacts.

(** ** Increasing sequences *)

Section Increasing.

Context {F : Type} `{ScalarLaws F}.

Lemma increasing_cons (a : F) (x : list F) :
  increasing (a :: x) = true ->
  Forall (fun b => flt a b = true) x /\ increasing x = true.
Proof.
  revert a. induction x as [|b x IH]; intros a Hinc; [auto |].
  change (flt a b && increasing (b :: x) = true) in Hinc.
  apply andb_true_iff in Hinc as [Hab Hinc].
  split; [|assumption].
  constructor; [assumption |].
  destruct (IH b Hinc) as [Hall _].
  eapply Forall_impl; [exact Hall |].
  intros c Hbc. now apply flt_trans with b.
Qed.

(** Strictly increasing is increasing between any two positions. *)
Lemma increasing_lookup (x : list F) (i j : nat) (a b : F) :
  increasing x = true -> i < j ->
  x !! i = Some a -> x !! j = Some b -> flt a b = true.
Proof.
  revert i j. induction x as [|c x IH]; intros i j Hinc Hij Hi Hj;
    [discriminate |].
  destruct (increasing_cons _ _ Hinc) as [Hall Hinc'].
  destruct j as [|j]; [lia |]. simpl in Hj.
  destruct i as [|i]; simpl in Hi.
  - injection Hi as ->.
    rewrite Forall_lookup in Hall. exact (Hall _ _ Hj).
  - apply (IH i j); [assumption | lia | assumption | assumption].
Qed.

Lemma increasing_intro (x : list F) :
  (forall (i : nat) (a b : F),
      x !! i = Some a -> x !! S i = Some b -> flt a b = true) ->
  increasing x = true.
Proof.
  induction x as [|a [|b x] IH]; intros Hadj; [reflexivity | reflexivity |].
  change (flt a b && increasing (b :: x) = true).
  apply andb_true_iff. split.
  - now apply (Hadj 0).
  - apply IH. intros i c d Hc Hd. now apply (Hadj (S i)).
Qed.

Lemma flt_asym (a b : F) : flt a b = true -> flt b a = false.
Proof.
  intros Hab. destruct (flt b a) eqn:Hba; [|reflexivity].
  rewrite <- (flt_irrefl a). symmetry. now apply flt_trans with b.
Qed.

(** On a strictly increasing array, positions compare as their values. *)
Lemma increasing_position (x : list F) (i j : nat) (a b : F) :
  increasing x = true ->
  x !! i = Some a -> x !! j = Some b -> flt a b = true -> i < j.
Proof.
  intros Hinc Hi Hj Hab.
  destruct (lt_eq_lt_dec i j) as [[Hlt| ->]|Hgt]; [assumption | |].
  - rewrite Hi in Hj. injection Hj as ->. now rewrite flt_irrefl in Hab.
  - pose proof (increasing_lookup x j i b a Hinc Hgt Hj Hi) as Hba.
    apply flt_asym in Hba. congruence.
Qed.

End Increasing.

(** ** On valid input the loop runs to its end *)

Section Valid.

Context {F : Type} `{ScalarLaws F}.
Variable pop_on : bool -> bool.
Variables x y : list F.
Hypothesis Hvalid : valid_input x y.

Lemma turn_Ok (r q i : nat) :
  r < q -> q < i -> i < length x ->
  exists b, turn pop_on x y r q i = Ok b.
Proof.
  destruct Hvalid as (Hlen & _ & Hinc). intros Hrq Hqi Hi. unfold turn.
  destruct (getitem_lt x r ltac:(lia)) as (x1 & Hx1 & ->).
  destruct (getitem_lt y r ltac:(lia)) as (y1 & Hy1 & ->).
  destruct (getitem_lt x q ltac:(lia)) as (x2 & Hx2 & ->).
  destruct (getitem_lt y q ltac:(lia)) as (y2 & Hy2 & ->).
  destruct (getitem_lt x i ltac:(lia)) as (x3 & Hx3 & ->).
  destruct (getitem_lt y i ltac:(lia)) as (y3 & Hy3 & ->).
  monad_simpl. unfold left_turn_for_convex_hull, scalar_div.
  rewrite (fsub_lt_nonzero x1 x2)
    by (apply (increasing_lookup x r q); assumption).
  rewrite (fsub_lt_nonzero x2 x3)
    by (apply (increasing_lookup x q i); assumption).
  monad_simpl. eauto.
Qed.

Lemma chain_pop_Ok (q i : nat) (s : list nat) :
  stack_upto q s -> q < i -> i < length x ->
  exists s', chain_pop pop_on x y s i = Ok s'.
Proof.
  intros Hs. induction Hs as [|q r s Hrq Hs IH]; intros Hqi Hi;
    [simpl; eauto |].
  destruct (stack_upto_head _ _ Hs) as [t ->].
  rewrite chain_pop_unfold.
  destruct (turn_Ok r q i Hrq Hqi Hi) as [b ->]. monad_simpl.
  destruct b; [apply IH; lia | eauto].
Qed.

Lemma chain_each_Ok (m q : nat) (s : list nat) :
  stack_upto q s -> 2 <= length s -> S q + m <= length x ->
  exists s2, chain_each pop_on x y s (seq (S q) m) = Ok s2
    /\ stack_upto (q + m) s2 /\ 2 <= length s2.
Proof.
  revert q s. induction m as [|m IH]; intros q s Hs Hlen2 Hle.
  - exists s. rewrite Nat.add_0_r. simpl. auto.
  - cbn [seq chain_each].
    destruct (chain_pop_Ok q (S q) s Hs ltac:(lia) ltac:(lia)) as [s' Hpop].
    assert (chain_step pop_on x y s (S q) = Ok (S q :: s')) as Hstep
      by (unfold chain_step; now rewrite Hpop).
    rewrite Hstep. monad_simpl.
    destruct (chain_step_stack pop_on x y _ _ _ _ Hs (Nat.lt_succ_diag_r q) Hstep)
      as [Hs1 Hlen1].
    destruct (IH (S q) _ Hs1 Hlen1 ltac:(lia)) as (s2 & Hs2 & Hst2 & Hl2).
    exists s2. replace (q + S m) with (S q + m) by lia. auto.
Qed.

Lemma chain_Ok (k : nat) :
  2 <= k <= length x ->
  exists s, chain pop_on x y k = Ok s
    /\ stack_upto (k - 1) s /\ 2 <= length s.
Proof.
  intros Hk. unfold chain.
  assert (stack_upto 1 [1; 0]) as Hs0
    by (apply (stack_cons 1 0); [lia | constructor]).
  destruct (chain_each_Ok (k - 2) 1 [1; 0] Hs0 ltac:(simpl; lia) ltac:(lia))
    as (s & Hs & Hst & Hl).
  exists s. replace (k - 1) with (1 + (k - 2)) by lia. auto.
Qed.

(** The state of the loop after the iterations of [range(2, k)]. *)
Lemma hull_loop_valid (k : nat) :
  2 <= k <= length x ->
  exists s st,
    hull_loop pop_on x y k = Ok st
    /\ represents x y s st /\ stack_upto (k - 1) s /\ 2 <= length s.
Proof.
  intros Hk. destruct Hvalid as (Hlen & _ & _).
  destruct (chain_Ok k Hk) as (s & Hc & Hs & Hl).
  pose proof (hull_loop_chain pop_on x y Hlen k Hk) as Hloop.
  rewrite Hc in Hloop. destruct Hloop as (st & Hst & Hrep & _).
  exists s, st. auto.
Qed.

(** The [while] loop leaves at least one hull point. *)
Lemma pop_while_valid (q i : nat) (s : list nat) (st : hull_state) :
  represents x y s st -> stack_upto q s -> q < i -> i < length x ->
  exists nh,
    pop_while pop_on x y (st_hullx st) (st_hully st) i (st_nh st) = Ok nh
    /\ 1 <= nh <= st_nh st.
Proof.
  intros (Hnh & _ & _ & Hh) Hs Hqi Hi.
  rewrite Hnh, (pop_while_chain pop_on x y i _ _ s Hh).
  destruct (chain_pop_Ok q i s Hs Hqi Hi) as [s' Hpop].
  rewrite Hpop. monad_simpl. exists (length s'). split; [reflexivity |].
  destruct (chain_pop_stack pop_on x y _ _ _ _ Hs Hpop)
    as (q' & l & _ & Hs' & ->).
  apply stack_upto_length in Hs'. rewrite length_app. lia.
Qed.

(** The arrays of a state that represents [s], cut at the hull size, are
    the input points at the positions of [s], bottom first. *)
Lemma represents_take (q : nat) (s : list nat) (st : hull_state) :
  represents x y s st -> stack_upto q s -> q < length x ->
  Forall2 (fun j v => x !! j = Some v)
    (reverse s) (take (st_nh st) (st_hullx st))
  /\ Forall2 (fun j v => y !! j = Some v)
    (reverse s) (take (st_nh st) (st_hully st)).
Proof.
  intros (Hnh & Hlx & Hly & Hh) Hs Hq.
  pose proof (stack_upto_length _ _ Hs) as Hl.
  split; apply Forall2_same_length_lookup_2;
    try (rewrite length_reverse, length_take_le; lia).
  all: intros k j v Hj Hv; apply lookup_take_Some in Hv as [Hv _];
    destruct (Hh k j Hj) as [Hx Hy]; congruence.
Qed.

(** On valid input a builder returns the input points at the positions of
    the stack [chain (len x)]. *)
Lemma convex_hull_chain :
  exists s hx hy,
    chain pop_on x y (length x) = Ok s
    /\ stack_upto (length x - 1) s /\ 2 <= length s
    /\ convex_hull pop_on x y = Ok (hx, hy)
    /\ Forall2 (fun j v => x !! j = Some v) (reverse s) hx
    /\ Forall2 (fun j v => y !! j = Some v) (reverse s) hy.
Proof.
  destruct Hvalid as (Hlen & Hn & Hinc).
  destruct (chain_Ok (length x) ltac:(lia)) as (s & Hc & Hs & Hl).
  pose proof (hull_loop_chain pop_on x y Hlen (length x) ltac:(lia)) as Hloop.
  rewrite Hc in Hloop. destruct Hloop as (st & Hst & Hrep & _).
  destruct (represents_take _ _ _ Hrep Hs ltac:(lia)) as [Hx Hy].
  exists s, (take (st_nh st) (st_hullx st)), (take (st_nh st) (st_hully st)).
  repeat split; try assumption; try lia.
  unfold convex_hull. rewrite <- Hlen, Nat.eqb_refl. simpl negb. cbv iota.
  destruct (Nat.leb_spec (length x) 2) as [Hle|_]; [lia |].
  now rewrite Hst.
Qed.

End Valid.

(** ** Binary64 satisfies the laws *)

(** The comparison of binary64 is a strict order, and the difference of
    two numbers of which one is less than the other is not zero (an
    infinity, or a finite number that rounding cannot take to zero, since
    a nonzero mantissa keeps at least one digit through the shift of the
    rounding).  Proved from the specification of the primitive operations
    ([FloatAxioms]). *)
Section Binary64.

Local Open Scope Z_scope.

Lemma SFcompare_finite_same_sign (s : bool) (m1 m2 : positive) (e1 e2 : Z) :
  SFcompare (S754_finite s m1 e1) (S754_finite s m2 e2)
  = Some (let c := match e1 ?= e2 with
                   | Eq => (Zpos m1 ?= Zpos m2)
                   | c => c
                   end in
          if s then CompOpp c else c).
Proof.
  simpl. unfold Pos.compare. destruct s, (e1 ?= e2); reflexivity.
Qed.

Lemma SFltb_trans (a b c : spec_float) :
  SFltb a b = true -> SFltb b c = true -> SFltb a c = true.
Proof.
  unfold SFltb.
  destruct a as [sa|sa| |sa ma ea], b as [sb|sb| |sb mb eb],
    c as [sc|sc| |sc mc ec];
    try (simpl; try destruct sa; try destruct sb; try destruct sc;
         simpl; congruence).
  destruct sa, sb, sc; try (simpl; congruence);
    rewrite !SFcompare_finite_same_sign; cbv zeta;
    destruct (Z.compare_spec ea eb), (Z.compare_spec eb ec),
      (Z.compare_spec ea ec);
    try (simpl; congruence); try lia;
    destruct (Z.compare_spec (Zpos ma) (Zpos mb)),
      (Z.compare_spec (Zpos mb) (Zpos mc)),
      (Z.compare_spec (Zpos ma) (Zpos mc));
    try (simpl; congruence); try lia.
Qed.

Lemma SFltb_irrefl (a : spec_float) : SFltb a a = false.
Proof.
  unfold SFltb. destruct a as [s|s| |s m e]; try (destruct s; reflexivity);
    try reflexivity.
  rewrite SFcompare_finite_same_sign. cbv zeta.
  rewrite !Z.compare_refl. now destruct s.
Qed.

Lemma SFeqb_not_ltb (a b : spec_float) : SFeqb a b = true -> SFltb a b = false.
Proof.
  unfold SFeqb, SFltb. destruct (SFcompare a b) as [[| |]|]; congruence.
Qed.

(** A stored finite number is canonical: its exponent is at least [emin],
    and above [emin] its mantissa has all [prec] digits. *)

Lemma bounded_inv (m : positive) (e : Z) :
  bounded prec emax m e = true ->
  emin <= e
  /\ Zpos (digits2_pos m) <= prec
  /\ (emin < e -> Zpos (digits2_pos m) = prec).
Proof.
  unfold bounded, canonical_mantissa, fexp, SpecFloat.emin, prec, emax.
  intros Hb. apply andb_prop in Hb as [Hc _]. apply Z.eqb_eq in Hc. lia.
Qed.

Lemma digits2_pos_iter_xO (m d : positive) :
  Zpos (digits2_pos (Pos.iter xO m d)) = Zpos (digits2_pos m) + Zpos d.
Proof.
  induction d as [|d IH] using Pos.peano_ind.
  - simpl. lia.
  - rewrite Pos.iter_succ. simpl digits2_pos. lia.
Qed.

Lemma shl_align_digits (m : positive) (e ez : Z) :
  ez <= e ->
  Zpos (digits2_pos (fst (shl_align m e ez))) = Zpos (digits2_pos m) + (e - ez).
Proof.
  intros Hle. unfold shl_align.
  destruct (ez - e) as [|d|d] eqn:Hd; cbn [fst]; try lia.
  rewrite digits2_pos_iter_xO. lia.
Qed.

Lemma shl_align_same (m : positive) (e : Z) : fst (shl_align m e e) = m.
Proof. unfold shl_align. now rewrite Z.sub_diag. Qed.

Lemma shr_1_digits (mrs : shr_record) :
  0 <= shr_m mrs ->
  0 <= shr_m (shr_1 mrs)
  /\ Zdigits2 (shr_m (shr_1 mrs)) = Z.max (Zdigits2 (shr_m mrs) - 1) 0.
Proof.
  destruct mrs as [[|[p|p|]|p] r s];
    cbn [shr_1 shr_m Zdigits2 digits2_pos]; rewrite ?Pos2Z.inj_succ; lia.
Qed.

Lemma iter_shr_1_digits (n : positive) (mrs : shr_record) :
  0 <= shr_m mrs ->
  0 <= shr_m (SpecFloat.iter_pos shr_1 n mrs)
  /\ Zdigits2 (shr_m (SpecFloat.iter_pos shr_1 n mrs))
     = Z.max (Zdigits2 (shr_m mrs) - Zpos n) 0.
Proof.
  revert mrs. induction n as [n IH|n IH|]; intros mrs Hm; simpl SpecFloat.iter_pos.
  - destruct (shr_1_digits mrs Hm) as [H1 E1].
    destruct (IH _ H1) as [H2 E2]. destruct (IH _ H2) as [H3 E3].
    split; [assumption | lia].
  - destruct (IH _ Hm) as [H2 E2]. destruct (IH _ H2) as [H3 E3].
    split; [assumption | lia].
  - apply shr_1_digits, Hm.
Qed.

Lemma Zdigits2_pos (m : Z) : 0 <= m -> 0 < Zdigits2 m -> 0 < m.
Proof. destruct m; simpl; lia. Qed.

Lemma Zdigits2_nonneg (m : Z) : 0 < m -> 0 < Zdigits2 m.
Proof. destruct m; simpl; lia. Qed.

Lemma shr_record_of_loc_m (m : Z) (l : location) :
  shr_m (shr_record_of_loc m l) = m.
Proof. destruct l as [|[| |]]; reflexivity. Qed.

Lemma shr_fexp_pos (m e : Z) (l : location) :
  0 < m -> emin <= e ->
  0 < shr_m (fst (shr_fexp prec emax m e l))
  /\ emin <= snd (shr_fexp prec emax m e l).
Proof.
  intros Hm He. unfold shr_fexp, shr.
  pose proof (Zdigits2_nonneg m Hm) as Hd.
  destruct (fexp prec emax (Zdigits2 m + e) - e) as [|n|n] eqn:Hn; simpl;
    rewrite ?shr_record_of_loc_m; try (split; assumption).
  destruct (iter_shr_1_digits n (shr_record_of_loc m l)) as [H1 E1];
    [rewrite shr_record_of_loc_m; lia |].
  rewrite shr_record_of_loc_m in E1.
  split; [|lia].
  apply Zdigits2_pos; [assumption |].
  rewrite E1. unfold fexp, SpecFloat.emin, prec, emax in *. lia.
Qed.

Lemma round_nearest_even_pos (m : Z) (l : location) :
  0 < m -> 0 < round_nearest_even m l.
Proof.
  intros Hm. destruct l as [|[| |]]; simpl; try lia.
  destruct (Z.even m); lia.
Qed.

Lemma binary_round_aux_nonzero (s s' : bool) (m e : Z) :
  0 < m -> emin <= e ->
  binary_round_aux prec emax s m e loc_Exact <> S754_zero s'.
Proof.
  intros Hm He. unfold binary_round_aux.
  destruct (shr_fexp_pos m e loc_Exact Hm He) as [H1 E1].
  destruct (shr_fexp prec emax m e loc_Exact) as [mrs' e']. simpl in H1, E1.
  pose proof (round_nearest_even_pos (shr_m mrs') (loc_of_shr_record mrs') H1)
    as Hr.
  destruct (shr_fexp_pos _ e' loc_Exact Hr E1) as [H2 E2].
  destruct (shr_fexp prec emax _ e' loc_Exact) as [mrs'' e''].
  simpl in H2, E2.
  destruct (shr_m mrs'') as [|p|p]; try lia.
  destruct (e'' <=? emax - prec); discriminate.
Qed.

Lemma binary_normalize_nonzero (m e : Z) (sz s' : bool) :
  m <> 0 -> emin <= e ->
  binary_normalize prec emax m e sz <> S754_zero s'.
Proof.
  intros Hm He.
  assert (forall s p, binary_round prec emax s p e <> S754_zero s') as Hr.
  { intros s p. unfold binary_round, shl_align.
    destruct (fexp prec emax (Zpos (digits2_pos p) + e) - e) as [|d|d] eqn:Hd;
      apply binary_round_aux_nonzero; try lia.
    unfold fexp, SpecFloat.emin, prec, emax in *. lia. }
  destruct m as [|p|p]; [contradiction | apply Hr | apply Hr].
Qed.

Lemma SFsub_lt_nonzero (a b : spec_float) (s' : bool) :
  valid_binary a = true -> valid_binary b = true ->
  SFltb a b = true -> SF64sub b a <> S754_zero s'.
Proof.
  intros Va Vb Hlt. unfold SFltb in Hlt. unfold SF64sub, SFsub.
  destruct a as [sa|sa| |sa ma ea], b as [sb|sb| |sb mb eb];
    try (simpl in Hlt; discriminate);
    try (destruct sa; try destruct sb; simpl in *; discriminate);
    try (destruct sb; simpl in *; discriminate).
  - simpl in Va, Vb.
    destruct (bounded_inv _ _ Va) as (Hea & Hda & Hna).
    destruct (bounded_inv _ _ Vb) as (Heb & Hdb & Hnb).
    apply binary_normalize_nonzero; [|lia].
    pose proof (shl_align_digits mb eb (Z.min eb ea) ltac:(lia)) as Db.
    pose proof (shl_align_digits ma ea (Z.min eb ea) ltac:(lia)) as Da.
    intros HM.
    assert (sa = sb /\ fst (shl_align mb eb (Z.min eb ea))
                       = fst (shl_align ma ea (Z.min eb ea))) as [-> Heq].
    { unfold cond_Zopp in HM.
      destruct sa, sb; split; try reflexivity; lia. }
    rewrite Heq in Db.
    destruct (Z.lt_total ea eb) as [Hlt'|[->|Hlt']]; try lia.
    rewrite Z.min_id, !shl_align_same in Heq. subst mb.
    rewrite SFcompare_finite_same_sign in Hlt. cbv zeta in Hlt.
    rewrite !Z.compare_refl in Hlt. destruct sb; discriminate.
Qed.

Lemma float_sub_lt_nonzero (a b : float) :
  (a <? b)%float = true -> ((b - a) =? 0)%float = false.
Proof.
  intros Hlt. rewrite FloatAxioms.ltb_spec in Hlt. rewrite FloatAxioms.eqb_spec, FloatAxioms.sub_spec.
  change (Prim2SF 0%float) with (S754_zero false).
  pose proof (fun s' => SFsub_lt_nonzero _ _ s' (Prim2SF_valid a)
                          (Prim2SF_valid b) Hlt) as Hnz.
  destruct (SF64sub (Prim2SF b) (Prim2SF a)) as [s|s| |s m e];
    try reflexivity.
  - now contradiction (Hnz s).
  - now destruct s.
  - now destruct s.
Qed.

End Binary64.

#[export] Instance float_laws : ScalarLaws float.
Proof.
  split.
  - intros a b c. simpl. rewrite !FloatAxioms.ltb_spec. apply SFltb_trans.
  - intros a. simpl. rewrite FloatAxioms.ltb_spec. apply SFltb_irrefl.
  - intros a b. simpl. rewrite FloatAxioms.ltb_spec, FloatAxioms.eqb_spec. apply SFeqb_not_ltb.
  - intros a b. simpl. apply float_sub_lt_nonzero.
Qed.

(** ** The properties of the hull builders *)

Section Builders.

Context {F : Type} `{ScalarLaws F}.

Lemma points_at_increasing (x y : list F) (idx : list nat) (hx hy : list F) :
  increasing x = true -> ascending idx -> points_at x y idx hx hy ->
  increasing hx = true.
Proof.
  intros Hinc Hasc [Hx _]. apply increasing_intro. intros k a b Ha Hb.
  destruct (Forall2_lookup_r _ _ _ _ _ Hx Ha) as (i & Hi & Hxi).
  destruct (Forall2_lookup_r _ _ _ _ _ Hx Hb) as (j & Hj & Hxj).
  apply (increasing_lookup x i j); try assumption.
  apply (Hasc k (S k)); [lia | assumption | assumption].
Qed.

(** What a builder returns on valid input, for either orientation. *)
Lemma convex_hull_valid (pop_on : bool -> bool) (x y : list F) :
  valid_input x y ->
  exists idx hx hy,
    convex_hull pop_on x y = Ok (hx, hy)
    /\ points_at x y idx hx hy
    /\ ascending idx
    /\ head idx = Some 0 /\ last idx = Some (length x - 1)
    /\ 2 <= length idx <= length x.
Proof.
  intros Hvalid.
  destruct (convex_hull_chain pop_on x y Hvalid)
    as (s & hx & hy & _ & Hs & Hl & Hhull & Hx & Hy).
  exists (reverse s), hx, hy. split; [assumption |].
  split; [split; assumption |].
  split; [exact (stack_upto_ascending _ _ Hs) |].
  split; [rewrite head_reverse; exact (stack_upto_last _ _ Hs) |].
  split.
  - rewrite last_reverse. now destruct (stack_upto_head _ _ Hs) as [t ->].
  - rewrite length_reverse. apply stack_upto_length in Hs.
    destruct Hvalid as (_ & Hn & _). lia.
Qed.

End Builders.

(** C4.  On valid input (equal lengths, more than two points, [x] strictly
    increasing) the hull returned by either builder is the input point
    sequence taken at strictly increasing positions, and its [x] values are
    strictly increasing. *)
Theorem hull_is_subsequence {F : Type} `{ScalarLaws F} (x y : list F) :
  valid_input x y ->
  (exists idx hx hy,
      upper_convex_hull x y = Ok (hx, hy)
      /\ ascending idx /\ points_at x y idx hx hy
      /\ increasing hx = true)
  /\ (exists idx hx hy,
      lower_convex_hull x y = Ok (hx, hy)
      /\ ascending idx /\ points_at x y idx hx hy
      /\ increasing hx = true).
Proof.
  intros Hvalid.
  split;
    [destruct (convex_hull_valid (fun t => t) x y Hvalid)
       as (idx & hx & hy & Hhull & Hpts & Hasc & _)
    |destruct (convex_hull_valid negb x y Hvalid)
       as (idx & hx & hy & Hhull & Hpts & Hasc & _)];
    exists idx, hx, hy; repeat split; try assumption; try apply Hpts;
    apply (points_at_increasing x y idx hx hy); try assumption;
    apply Hvalid.
Qed.

Lemma hull_is_subsequence_witness :
  (exists idx hx hy,
      upper_convex_hull scenario_x scenario_y = Ok (hx, hy)
      /\ ascending idx /\ points_at scenario_x scenario_y idx hx hy
      /\ increasing hx = true)
  /\ (exists idx hx hy,
      lower_convex_hull scenario_x scenario_y = Ok (hx, hy)
      /\ ascending idx /\ points_at scenario_x scenario_y idx hx hy
      /\ increasing hx = true).
Proof.
  apply (hull_is_subsequence (F:=float)).
  split; [reflexivity | split; [simpl; lia | reflexivity]].
Defined.

Section Endpoints.

Context {F : Type} `{ScalarLaws F}.

Lemma points_at_head (x y : list F) (idx : list nat) (hx hy : list F) (j : nat) :
  points_at x y idx hx hy -> head idx = Some j ->
  head hx = x !! j /\ head hy = y !! j.
Proof.
  intros [Hx Hy] Hj. destruct idx as [|j' idx]; [discriminate |].
  injection Hj as ->.
  inversion Hx as [|? a ? ? Ha _]; inversion Hy as [|? b ? ? Hb _]; subst.
  simpl. now rewrite Ha, Hb.
Qed.

Lemma points_at_last (x y : list F) (idx : list nat) (hx hy : list F) (j : nat) :
  points_at x y idx hx hy -> last idx = Some j ->
  last hx = x !! j /\ last hy = y !! j.
Proof.
  intros [Hx Hy] Hj. rewrite last_lookup in Hj.
  destruct (Forall2_lookup_l _ _ _ _ _ Hx Hj) as (a & Ha & Hxa).
  destruct (Forall2_lookup_l _ _ _ _ _ Hy Hj) as (b & Hb & Hyb).
  rewrite !last_lookup.
  rewrite <- (Forall2_length _ _ _ Hx), Ha, Hxa.
  rewrite <- (Forall2_length _ _ _ Hy), Hb, Hyb. auto.
Qed.

(** No abscissa of a strictly increasing array lies outside its ends. *)
Lemma increasing_extent (x : list F) (v x_first x_last : F) :
  increasing x = true -> v ∈ x ->
  x !! 0 = Some x_first -> x !! (length x - 1) = Some x_last ->
  flt x_last v = false /\ flt v x_first = false.
Proof.
  intros Hinc Hv Hfirst Hlast.
  apply list_elem_of_lookup in Hv as [m Hm].
  pose proof (lookup_lt_Some _ _ _ Hm) as Hlt.
  split.
  - destruct (decide (m = length x - 1)) as [->|Hne].
    + rewrite Hm in Hlast. injection Hlast as ->. apply flt_irrefl.
    + apply flt_asym.
      apply (increasing_lookup x m (length x - 1)); try assumption. lia.
  - destruct m as [|m].
    + rewrite Hm in Hfirst. injection Hfirst as ->. apply flt_irrefl.
    + apply flt_asym.
      apply (increasing_lookup x 0 (S m)); try assumption. lia.
Qed.

(** The ends of the hull are the ends of the input, for either
    orientation. *)
Lemma convex_hull_ends (pop_on : bool -> bool) (x y : list F) :
  valid_input x y ->
  exists hx hy,
    convex_hull pop_on x y = Ok (hx, hy)
    /\ head hx = x !! 0 /\ head hy = y !! 0
    /\ last hx = x !! (length x - 1) /\ last hy = y !! (length x - 1).
Proof.
  intros Hvalid.
  destruct (convex_hull_valid pop_on x y Hvalid)
    as (idx & hx & hy & Hhull & Hpts & _ & Hhead & Hlast & _).
  destruct (points_at_head _ _ _ _ _ _ Hpts Hhead) as [Hhx Hhy].
  destruct (points_at_last _ _ _ _ _ _ Hpts Hlast) as [Hlx Hly].
  exists hx, hy. repeat split; assumption.
Qed.

End Endpoints.

(** C9.  On valid input the first point of the upper hull is the first
    input point and its last point is the last input point; so no
    abscissa of the window lies outside the hull's [x] extent, and the
    interpolation has nothing to extrapolate. *)
Theorem hull_endpoints {F : Type} `{ScalarLaws F} (x y : list F) :
  valid_input x y ->
  exists hx hy,
    upper_convex_hull x y = Ok (hx, hy)
    /\ head hx = x !! 0 /\ head hy = y !! 0
    /\ last hx = x !! (length x - 1) /\ last hy = y !! (length x - 1)
    /\ forall v x_first x_last : F,
         v ∈ x -> head hx = Some x_first -> last hx = Some x_last ->
         flt x_last v = false /\ flt v x_first = false.
Proof.
  intros Hvalid.
  destruct (convex_hull_valid (fun t => t) x y Hvalid)
    as (idx & hx & hy & Hhull & Hpts & _ & Hhead & Hlast & _).
  destruct (points_at_head _ _ _ _ _ _ Hpts Hhead) as [Hhx Hhy].
  destruct (points_at_last _ _ _ _ _ _ Hpts Hlast) as [Hlx Hly].
  exists hx, hy. repeat split; try assumption.
  all: rewrite Hhx in *; rewrite Hlx in *;
    now apply (increasing_extent x v x_first x_last); try apply Hvalid.
Qed.

Lemma hull_endpoints_witness :
  exists hx hy,
    upper_convex_hull scenario_x scenario_y = Ok (hx, hy)
    /\ head hx = Some 0%float /\ head hy = Some 0%float
    /\ last hx = Some 4%float /\ last hy = Some 0%float
    /\ forall v x_first x_last : float,
         v ∈ scenario_x ->
         head hx = Some x_first -> last hx = Some x_last ->
         flt x_last v = false /\ flt v x_first = false.
Proof.
  apply (hull_endpoints (F:=float) scenario_x scenario_y).
  split; [reflexivity | split; [simpl; lia | reflexivity]].
Defined.

(** C10.  On valid input of length [n], before every iteration [k] of the
    [for] loop the arrays have length [n] and the hull size is between 2
    and [k]; the [while] loop of that iteration leaves it between 1 and
    what it was, hence below [n] where the new point is written; no array
    access fails; and the returned hull has between 2 and [n] points.  For
    both builders. *)
Theorem hull_size_in_bounds {F : Type} `{ScalarLaws F} (x y : list F) :
  valid_input x y ->
  (forall (pop_on : bool -> bool) (k : nat),
      2 <= k <= length x ->
      exists st,
        hull_loop pop_on x y k = Ok st
        /\ length (st_hullx st) = length x
        /\ length (st_hully st) = length x
        /\ 2 <= st_nh st <= k
        /\ (k < length x ->
            exists nh,
              pop_while pop_on x y (st_hullx st) (st_hully st) k (st_nh st)
              = Ok nh
              /\ 1 <= nh <= st_nh st))
  /\ (exists hx hy,
        upper_convex_hull x y = Ok (hx, hy)
        /\ 2 <= length hx <= length x /\ length hy = length hx)
  /\ (exists hx hy,
        lower_convex_hull x y = Ok (hx, hy)
        /\ 2 <= length hx <= length x /\ length hy = length hx).
Proof.
  intros Hvalid. split; [|split].
  - intros pop_on k Hk.
    destruct (hull_loop_valid pop_on x y Hvalid k Hk)
      as (s & st & Hst & Hrep & Hs & Hl).
    exists st. pose proof Hrep as (Hnh & Hlx & Hly & _).
    pose proof (stack_upto_length _ _ Hs) as Hle.
    repeat split; try assumption; try lia.
    intros Hkn.
    apply (pop_while_valid pop_on x y Hvalid (k - 1) k s st);
      try assumption; lia.
  - destruct (convex_hull_valid (fun t => t) x y Hvalid)
      as (idx & hx & hy & Hhull & [Hx Hy] & _ & _ & _ & Hl).
    exists hx, hy. apply Forall2_length in Hx, Hy.
    split; [assumption | lia].
  - destruct (convex_hull_valid negb x y Hvalid)
      as (idx & hx & hy & Hhull & [Hx Hy] & _ & _ & _ & Hl).
    exists hx, hy. apply Forall2_length in Hx, Hy.
    split; [assumption | lia].
Qed.

Lemma hull_size_in_bounds_witness :
  exists hx hy,
    lower_convex_hull scenario_x scenario_y = Ok (hx, hy)
    /\ 2 <= length hx <= 5 /\ length hy = length hx.
Proof.
  apply (hull_size_in_bounds (F:=float) scenario_x scenario_y).
  split; [reflexivity | split; [simpl; lia | reflexivity]].
Defined.

(** ** Failures *)

Lemma raises_only_bind {A B : Type} (P : exn -> Prop) (m : result A)
    (k : A -> result B) :
  raises_only P m -> (forall a, raises_only P (k a)) ->
  raises_only P (m ≫= k).
Proof. destruct m as [a|e]; simpl; auto. Qed.

Lemma raises_only_impl {A : Type} (P Q : exn -> Prop) (m : result A) :
  (forall e, P e -> Q e) -> raises_only P m -> raises_only Q m.
Proof. destruct m as [a|e]; simpl; auto. Qed.

Section Failures.

Context {F : Type} `{Scalar F}.

Lemma getitem_raises (a : list F) (i : nat) :
  raises_only arith_or_index (getitem a i).
Proof. unfold getitem. destruct (a !! i); simpl; [trivial | now right]. Qed.

Lemma setitem_raises (a : list F) (i : nat) (v : F) :
  raises_only arith_or_index (setitem a i v).
Proof. unfold setitem. case_decide; simpl; [trivial | now right]. Qed.

Lemma scalar_div_raises (a b : F) :
  raises_only arith_or_index (scalar_div a b).
Proof. unfold scalar_div. destruct (feq b fzero); simpl; [now left | trivial]. Qed.

Lemma left_turn_raises (x1 y1 x2 y2 x3 y3 : F) :
  raises_only arith_or_index (left_turn_for_convex_hull x1 y1 x2 y2 x3 y3).
Proof.
  unfold left_turn_for_convex_hull.
  repeat (apply raises_only_bind; [apply scalar_div_raises | intros ?]).
  exact I.
Qed.

Lemma pop_while_raises (pop_on : bool -> bool) (x y hullx hully : list F)
    (i nh : nat) :
  raises_only arith_or_index (pop_while pop_on x y hullx hully i nh).
Proof.
  destruct nh as [|nh]; [exact I |].
  induction nh as [|k IH]; [exact I |].
  rewrite pop_while_unfold.
  repeat (apply raises_only_bind; [apply getitem_raises | intros ?]).
  apply raises_only_bind; [apply left_turn_raises | intros t].
  destruct (pop_on t); [exact IH | exact I].
Qed.

Lemma hull_step_raises (pop_on : bool -> bool) (x y : list F)
    (st : hull_state) (i : nat) :
  raises_only arith_or_index (hull_step pop_on x y st i).
Proof.
  unfold hull_step.
  apply raises_only_bind; [apply pop_while_raises | intros nh].
  apply raises_only_bind; [apply getitem_raises | intros xi].
  apply raises_only_bind; [apply setitem_raises | intros hullx].
  apply raises_only_bind; [apply getitem_raises | intros yi].
  apply raises_only_bind; [apply setitem_raises | intros hully].
  exact I.
Qed.

Lemma for_each_raises (pop_on : bool -> bool) (x y : list F)
    (st : hull_state) (idx : list nat) :
  raises_only arith_or_index (for_each (hull_step pop_on x y) st idx).
Proof.
  revert st. induction idx as [|i idx IH]; intros st; [exact I |].
  simpl. apply raises_only_bind; [apply hull_step_raises | exact IH].
Qed.

Lemma hull_init_raises (x y : list F) :
  raises_only arith_or_index (hull_init x y).
Proof.
  unfold hull_init.
  repeat (apply raises_only_bind;
          [first [apply getitem_raises | apply setitem_raises] | intros ?]).
  exact I.
Qed.

Lemma hull_loop_raises (pop_on : bool -> bool) (x y : list F) (k : nat) :
  raises_only arith_or_index (hull_loop pop_on x y k).
Proof.
  unfold hull_loop.
  apply raises_only_bind; [apply hull_init_raises | intros st].
  apply for_each_raises.
Qed.

(** The two length checks of a builder, and what may fail after them. *)
Lemma convex_hull_cases (pop_on : bool -> bool) (x y : list F) :
  (length x <> length y /\ convex_hull pop_on x y = Raise ShapeError)
  \/ (length x = length y /\ length x <= 2
      /\ convex_hull pop_on x y = Raise SizeError)
  \/ (length x = length y /\ 2 < length x
      /\ raises_only arith_or_index (convex_hull pop_on x y)).
Proof.
  unfold convex_hull.
  destruct (Nat.eqb_spec (length x) (length y)) as [Heq|Hne];
    [|left; auto].
  right. simpl negb. cbv iota.
  destruct (Nat.leb_spec (length x) 2) as [Hle|Hgt]; [left; auto |].
  right. repeat split; try assumption.
  apply raises_only_bind; [apply hull_loop_raises | intros st; exact I].
Qed.

Lemma mask_select_raises (flag : list bool) (a : list F) :
  raises_only arith_or_index (mask_select flag a).
Proof.
  revert a. induction flag as [|b flag IH]; intros [|v a]; simpl;
    try (now right); [exact I |].
  apply raises_only_bind; [apply IH | intros r; exact I].
Qed.

Lemma interp_at_raises (xp fp : list F) (v : F) :
  raises_only arith_or_index (interp_at xp fp v).
Proof.
  unfold interp_at. destruct (fisnan v); [exact I |].
  repeat (apply raises_only_bind; [apply getitem_raises | intros ?]).
  repeat match goal with
         | |- raises_only _ (if ?c then _ else _) => destruct c
         | |- raises_only _ (Ok _) => exact I
         | |- raises_only _ (getitem _ _) => apply getitem_raises
         | |- raises_only _ (_ ≫= _) =>
             apply raises_only_bind; [apply getitem_raises | intros ?]
         end.
Qed.

Lemma interp_raises (x xp fp : list F) :
  raises_only arith_or_index (interp x xp fp).
Proof.
  induction x as [|v x IH]; [exact I |]. simpl.
  apply raises_only_bind; [apply interp_at_raises | intros c].
  apply raises_only_bind; [exact IH | intros cs; exact I].
Qed.

End Failures.

Lemma exn_distinct :
  ShapeError <> SizeError
  /\ UnsupportedTypeError <> ShapeError
  /\ UnsupportedTypeError <> SizeError.
Proof. repeat split; discriminate. Qed.

Lemma arith_or_index_not_ValueError (msg : string) :
  ~ arith_or_index (ValueError msg).
Proof. intros [Habs|Habs]; discriminate. Qed.

Section Preconditions.

Context {F : Type} `{Scalar F}.

Lemma convex_hull_ShapeError (pop_on : bool -> bool) (x y : list F) :
  convex_hull pop_on x y = Raise ShapeError <-> length x <> length y.
Proof.
  destruct (convex_hull_cases pop_on x y)
    as [[Hne ->]|[(Heq & Hle & ->)|(Heq & Hgt & Hr)]].
  - tauto.
  - split; [discriminate | contradiction].
  - split; [|contradiction]. intros Hc. rewrite Hc in Hr.
    now apply arith_or_index_not_ValueError in Hr.
Qed.

Lemma convex_hull_SizeError (pop_on : bool -> bool) (x y : list F) :
  convex_hull pop_on x y = Raise SizeError
  <-> length x = length y /\ length x <= 2.
Proof.
  destruct (convex_hull_cases pop_on x y)
    as [[Hne ->]|[(Heq & Hle & ->)|(Heq & Hgt & Hr)]].
  - split; [discriminate | tauto].
  - tauto.
  - split; [|lia]. intros Hc. rewrite Hc in Hr.
    now apply arith_or_index_not_ValueError in Hr.
Qed.

End Preconditions.

(** A builder fails, on strictly increasing [x], exactly when one of its
    two length checks does. *)
Lemma convex_hull_fails_iff {F : Type} `{ScalarLaws F}
    (pop_on : bool -> bool) (x y : list F) :
  increasing x = true ->
  ((exists e, convex_hull pop_on x y = Raise e)
   <-> length x <> length y \/ length x <= 2).
Proof.
  intros Hinc. split.
  - intros [e He].
    destruct (Nat.eq_dec (length x) (length y)) as [Heq|Hne]; [|now left].
    destruct (le_lt_dec (length x) 2) as [Hle|Hgt]; [now right |].
    destruct (convex_hull_valid pop_on x y (conj Heq (conj Hgt Hinc)))
      as (idx & hx & hy & Hhull & _).
    congruence.
  - intros [Hne|Hle].
    + exists ShapeError. now apply convex_hull_ShapeError.
    + destruct (Nat.eq_dec (length x) (length y)) as [Heq|Hne].
      * exists SizeError. now apply convex_hull_SizeError.
      * exists ShapeError. now apply convex_hull_ShapeError.
Qed.

(** C6, as the code has it.  Either builder raises the length-mismatch
    error exactly when the lengths differ, and the size error exactly when
    the lengths are equal and at most 2; the two errors differ; and when
    [x] is strictly increasing these are its only failures.  (On other
    input the turn predicate can still divide by a zero gap.) *)
Theorem hull_precondition_errors {F : Type} `{ScalarLaws F} (x y : list F) :
  (upper_convex_hull x y = Raise ShapeError <-> length x <> length y)
  /\ (upper_convex_hull x y = Raise SizeError
      <-> length x = length y /\ length x <= 2)
  /\ (lower_convex_hull x y = Raise ShapeError <-> length x <> length y)
  /\ (lower_convex_hull x y = Raise SizeError
      <-> length x = length y /\ length x <= 2)
  /\ ShapeError <> SizeError
  /\ (increasing x = true ->
      ((exists e, upper_convex_hull x y = Raise e)
       <-> length x <> length y \/ length x <= 2)
      /\ ((exists e, lower_convex_hull x y = Raise e)
          <-> length x <> length y \/ length x <= 2)).
Proof.
  split; [apply convex_hull_ShapeError |].
  split; [apply convex_hull_SizeError |].
  split; [apply convex_hull_ShapeError |].
  split; [apply convex_hull_SizeError |].
  split; [apply exn_distinct |].
  intros Hinc. split; now apply convex_hull_fails_iff.
Qed.

Lemma hull_precondition_errors_witness :
  upper_convex_hull [0; 1]%float [0; 2]%float = Raise SizeError
  /\ upper_convex_hull scenario_x [0; 2; 1; 2]%float = Raise ShapeError
  /\ ((exists e, lower_convex_hull scenario_x scenario_y = Raise e)
      <-> length scenario_x <> length scenario_y \/ length scenario_x <= 2).
Proof.
  split; [|split].
  - apply (hull_precondition_errors (F:=float) [0; 1]%float [0; 2]%float).
    simpl. lia.
  - apply (hull_precondition_errors (F:=float) scenario_x [0; 2; 1; 2]%float).
    simpl. lia.
  - apply (hull_precondition_errors (F:=float) scenario_x scenario_y).
    reflexivity.
Defined.

(** C6, as the claim states it, fails on binary64: with a repeated
    abscissa the lengths pass both checks and the builder still fails. *)
Lemma hull_fails_beyond_preconditions :
  ~ (forall x y : list float,
        (exists e, upper_convex_hull x y = Raise e)
        <-> length x <> length y \/ length x <= 2).
Proof.
  intros Hclaim.
  destruct (Hclaim [0; 0; 2]%float [0; 1; 2]%float) as [Hfail _].
  destruct Hfail as [Hne|Hle].
  - exists ZeroDivisionError. vm_compute. reflexivity.
  - now apply Hne.
  - simpl in Hle. lia.
Qed.

(** The scenarios C and D of the specification, on binary64. *)
Lemma scenario_C_D :
  upper_convex_hull [0; 1]%float [0; 2]%float = Raise SizeError
  /\ upper_convex_hull [0; 1; 2; 3; 4]%float [0; 2; 1; 2]%float
     = Raise ShapeError.
Proof. split; vm_compute; reflexivity. Qed.

(** C7.  [continuum_removal] fails with the unsupported-type error exactly
    when the continuum type is not ["uh"]; so it does for ["lh"]. *)
Theorem continuum_type_unsupported {F : Type} `{Scalar F} (x y : list F)
    (continuum_type : string)
    (left_outer_x left_inner_x right_inner_x right_outer_x : F) :
  (continuum_removal x y continuum_type
     left_outer_x left_inner_x right_inner_x right_outer_x
   = Raise UnsupportedTypeError
   <-> continuum_type <> "uh"%string)
  /\ continuum_removal x y "lh"
       left_outer_x left_inner_x right_inner_x right_outer_x
     = Raise UnsupportedTypeError.
Proof.
  split; [|reflexivity].
  unfold continuum_removal.
  destruct (String.eqb_spec continuum_type "uh") as [->|Hne];
    [|split; [auto | reflexivity]].
  split; [|intros Hne; now contradict Hne].
  intros Hc. exfalso.
  set (flag := window_flag left_inner_x right_inner_x x) in Hc.
  pose proof (mask_select_raises flag x) as Hx.
  destruct (mask_select flag x) as [xw|e];
    [|injection Hc as ->; now apply arith_or_index_not_ValueError in Hx].
  rewrite bind_Ok in Hc.
  pose proof (mask_select_raises flag y) as Hy.
  destruct (mask_select flag y) as [yw|e];
    [|injection Hc as ->; now apply arith_or_index_not_ValueError in Hy].
  rewrite bind_Ok in Hc.
  destruct (convex_hull_cases (fun t => t) xw yw)
    as [[_ Hh]|[(_ & _ & Hh)|(_ & _ & Hh)]];
    fold (upper_convex_hull xw yw) in Hh.
  1,2: rewrite Hh in Hc; discriminate.
  destruct (upper_convex_hull xw yw) as [[hullx hully]|e];
    [|injection Hc as ->; now apply arith_or_index_not_ValueError in Hh].
  rewrite bind_Ok in Hc.
  pose proof (interp_raises xw hullx hully) as Hi.
  destruct (interp xw hullx hully) as [c|e]; [discriminate |].
  injection Hc as ->. now apply arith_or_index_not_ValueError in Hi.
Qed.

(** ** The window of the pipeline *)

Section Window.

Context {F : Type} `{Scalar F}.

Lemma window_flag_spec (x_min x_max : F) (x : list F) :
  window_flag x_min x_max x = map (in_window x_min x_max) x.
Proof.
  unfold window_flag. induction x as [|v x IH]; [reflexivity |].
  simpl. now rewrite IH.
Qed.

Lemma mask_select_filter (p : F -> bool) (x : list F) :
  mask_select (map p x) x = Ok (List.filter p x).
Proof.
  induction x as [|v x IH]; [reflexivity |].
  simpl. rewrite IH, bind_Ok. now destruct (p v).
Qed.

Lemma mask_select_filter_zip (p : F -> bool) (x y : list F) :
  length x = length y ->
  mask_select (map p x) y
  = Ok (map snd (List.filter (fun xy => p (fst xy)) (zip x y))).
Proof.
  revert y. induction x as [|v x IH]; intros [|w y] Hlen;
    try discriminate; [reflexivity |].
  simpl. rewrite IH by (simpl in Hlen; lia). rewrite bind_Ok.
  now destruct (p v).
Qed.

(** The points a predicate on the abscissa selects are the points at the
    positions where it holds, in their order. *)
Lemma filter_positions (p : F -> bool) (x y : list F) :
  length x = length y ->
  exists idx : list nat,
    ascending idx
    /\ (forall i, i ∈ idx <-> exists v, x !! i = Some v /\ p v = true)
    /\ points_at x y idx (List.filter p x)
         (map snd (List.filter (fun xy => p (fst xy)) (zip x y))).
Proof.
  revert y. induction x as [|v x IH]; intros [|w y] Hlen; try discriminate.
  - exists []. split; [intros a b i j _ Ha; discriminate |].
    split; [|split; constructor].
    intros i. split; [intros Hi; inversion Hi | intros (u & Hu & _); discriminate].
  - destruct (IH y ltac:(simpl in Hlen; lia)) as (idx & Hasc & Hmem & Hx & Hy).
    assert (ascending (S <$> idx)) as Hasc'.
    { intros a b i j Hab Ha Hb. rewrite list_lookup_fmap in Ha, Hb.
      destruct (idx !! a) as [i'|] eqn:Hi'; [|discriminate].
      destruct (idx !! b) as [j'|] eqn:Hj'; [|discriminate].
      injection Ha as <-. injection Hb as <-.
      pose proof (Hasc a b i' j' Hab Hi' Hj'). lia. }
    assert (forall i, i ∈ S <$> idx
              <-> exists i', i = S i' /\ exists u, x !! i' = Some u /\ p u = true)
      as Hmem'.
    { intros i. rewrite list_elem_of_fmap. split.
      - intros (i' & -> & Hi'). exists i'. split; [reflexivity |]. now apply Hmem.
      - intros (i' & -> & Hi'). exists i'. split; [reflexivity |]. now apply Hmem. }
    assert (points_at (v :: x) (w :: y) (S <$> idx) (List.filter p x)
              (map snd (List.filter (fun xy => p (fst xy)) (zip x y))))
      as Hpts'.
    { split; apply Forall2_fmap_l; assumption. }
    simpl. destruct (p v) eqn:Hv.
    + exists (0 :: (S <$> idx)). split; [|split].
      * intros [|a] [|b] i j Hab Ha Hb; try lia.
        -- injection Ha as <-. simpl in Hb. rewrite list_lookup_fmap in Hb.
           destruct (idx !! b); [|discriminate]. injection Hb as <-. lia.
        -- simpl in Ha, Hb. apply (Hasc' a b); [lia | assumption | assumption].
      * intros i. rewrite elem_of_cons, Hmem'. split.
        -- intros [-> | (i' & -> & Hi')]; [now exists v | exact Hi'].
        -- intros (u & Hu & Hpu). destruct i as [|i']; [now left |].
           right. exists i'. split; [reflexivity |]. now exists u.
      * destruct Hpts' as [Hx' Hy']. split; simpl; constructor; auto.
    + exists (S <$> idx). split; [assumption |]. split; [|assumption].
      intros i. rewrite Hmem'. split.
      * intros (i' & -> & Hi'). exact Hi'.
      * intros (u & Hu & Hpu). destruct i as [|i'].
        -- injection Hu as <-. congruence.
        -- exists i'. split; [reflexivity |]. now exists u.
Qed.

End Window.

(** C5.  With type ["uh"], [continuum_removal] works on exactly the points
    at the positions [i] with [left_inner <= x[i] <= right_inner], [x] and
    [y] alike and in their order: its result is what the hull, the
    interpolation and the division give on these points, the returned [x]
    being these abscissas.  The outer bounds have no part in it. *)
Theorem window_is_inner_range {F : Type} `{Scalar F} (x y : list F)
    (left_outer_x left_inner_x right_inner_x right_outer_x : F) :
  (forall left_outer_x' right_outer_x' : F,
      continuum_removal x y "uh"
        left_outer_x left_inner_x right_inner_x right_outer_x
      = continuum_removal x y "uh"
          left_outer_x' left_inner_x right_inner_x right_outer_x')
  /\ (length x = length y ->
      exists (idx : list nat) (xw yw : list F),
        ascending idx
        /\ (forall i, i ∈ idx
              <-> exists v, x !! i = Some v
                    /\ fle left_inner_x v = true /\ fle v right_inner_x = true)
        /\ points_at x y idx xw yw
        /\ continuum_removal x y "uh"
             left_outer_x left_inner_x right_inner_x right_outer_x
           = ('(hullx, hully) ← upper_convex_hull xw yw;
              c ← interp xw hullx hully;
              Ok (xw, zip_with fdiv yw c, c))).
Proof.
  split; [reflexivity |]. intros Hlen.
  destruct (filter_positions (in_window left_inner_x right_inner_x) x y Hlen)
    as (idx & Hasc & Hmem & Hpts).
  eexists idx, _, _. split; [exact Hasc |].
  split; [|split; [exact Hpts |]].
  - intros i. rewrite Hmem. unfold in_window.
    split; intros (v & Hv & Hin); exists v; (split; [assumption |]).
    + now apply andb_true_iff.
    + now apply andb_true_iff in Hin.
  - unfold continuum_removal. simpl String.eqb. cbv iota.
    rewrite window_flag_spec, mask_select_filter, bind_Ok.
    rewrite (mask_select_filter_zip _ x y Hlen), bind_Ok. reflexivity.
Qed.

Lemma window_is_inner_range_witness :
  exists (idx : list nat) (xw yw : list float),
    ascending idx
    /\ (forall i, i ∈ idx
          <-> exists v, [0; 1; 2; 3; 4; 5]%float !! i = Some v
                /\ fle 1%float v = true /\ fle v 4%float = true)
    /\ points_at [0; 1; 2; 3; 4; 5]%float [0; 2; 1; 2; 0; 7]%float idx xw yw
    /\ continuum_removal [0; 1; 2; 3; 4; 5]%float [0; 2; 1; 2; 0; 7]%float
         "uh" 0%float 1%float 4%float 9%float
       = ('(hullx, hully) ← upper_convex_hull xw yw;
          c ← interp xw hullx hully;
          Ok (xw, zip_with fdiv yw c, c)).
Proof.
  apply (window_is_inner_range (F:=float)
           [0; 1; 2; 3; 4; 5]%float [0; 2; 1; 2; 0; 7]%float
           0%float 1%float 4%float 9%float).
  reflexivity.
Defined.

(** C3.  On [x = [0,1,2,3,4]], [y = [0,2,1,2,0]] the upper hull builder
    returns hull x [[0,1,3,4]] and hull y [[0,2,2,0]]. *)
Theorem scenario_A_upper_hull :
  upper_convex_hull scenario_x scenario_y
  = Ok ([0; 1; 3; 4]%float, [0; 2; 2; 0]%float).
Proof. vm_compute. reflexivity. Qed.

(** C8.  On [x = [0,1,2,3,4]], [y = [0,2,1,2,0]] with type ["uh"],
    [left_inner = 0] and [right_inner = 4], whatever the outer bounds, the
    continuum at [x = 2] is [2.0] and the ratio there is [0.5]. *)
Theorem scenario_B_continuum (left_outer_x right_outer_x : float) :
  exists wx ratio_y continuum_y,
    continuum_removal scenario_x scenario_y "uh"
      left_outer_x 0%float 4%float right_outer_x
    = Ok (wx, ratio_y, continuum_y)
    /\ wx !! 2 = Some 2%float
    /\ continuum_y !! 2 = Some 2%float
    /\ ratio_y !! 2 = Some 0.5%float
    /\ continuum_y = [0; 2; 2; 2; 0]%float.
Proof.
  exists [0; 1; 2; 3; 4]%float, [nan; 1; 0.5; 1; nan]%float,
    [0; 2; 2; 2; 0]%float.
  split; [vm_compute; reflexivity |].
  repeat split.
Qed.

(** ** Collinear points *)

(** C2, as the code has it.  Of three input points with strictly increasing
    [x] whose two slopes compare equal, the upper hull builder keeps all
    three (its test is a strict [>], which equal slopes do not pass); it is
    the lower hull builder that drops the middle one. *)
Theorem collinear_middle_point {F : Type} `{ScalarLaws F}
    (x0 y0 x1 y1 x2 y2 : F) :
  flt x0 x1 = true -> flt x1 x2 = true ->
  collinear3 x0 y0 x1 y1 x2 y2 ->
  upper_convex_hull [x0; x1; x2] [y0; y1; y2]
  = Ok ([x0; x1; x2], [y0; y1; y2])
  /\ lower_convex_hull [x0; x1; x2] [y0; y1; y2]
     = Ok ([x0; x2], [y0; y2]).
Proof.
  intros H01 H12 Hcol. unfold collinear3 in Hcol.
  apply feq_not_flt in Hcol.
  unfold upper_convex_hull, lower_convex_hull, convex_hull, hull_loop,
    hull_init.
  simpl. unfold hull_step. simpl.
  unfold left_turn_for_convex_hull, scalar_div.
  rewrite (fsub_lt_nonzero _ _ H01), (fsub_lt_nonzero _ _ H12).
  simpl. rewrite Hcol. simpl. split; reflexivity.
Qed.

Lemma collinear_middle_point_witness :
  upper_convex_hull [0; 1; 2]%float [0; 1; 2]%float
  = Ok ([0; 1; 2]%float, [0; 1; 2]%float)
  /\ lower_convex_hull [0; 1; 2]%float [0; 1; 2]%float
     = Ok ([0; 2]%float, [0; 2]%float).
Proof.
  apply (collinear_middle_point (F:=float) 0%float 0%float 1%float 1%float
           2%float 2%float); reflexivity.
Defined.

(** C2, as the claim states it, fails on binary64: the three collinear
    points [(0,0)], [(1,1)], [(2,2)] all stay in the upper hull. *)
Lemma collinear_upper_keeps_three :
  collinear3 0%float 0%float 1%float 1%float 2%float 2%float
  /\ ~ (exists hx hy,
          upper_convex_hull [0; 1; 2]%float [0; 1; 2]%float = Ok (hx, hy)
          /\ length hx = 2).
Proof.
  split; [vm_compute; reflexivity |].
  intros (hx & hy & Hhull & Hlen).
  vm_compute in Hhull. injection Hhull as <- <-. discriminate.
Qed.

(** ** [np.interp] over the hull *)

(** The search stops at an interval that holds the abscissa. *)
Lemma interp_search_spec {F : Type} `{Scalar F} (v : F) (xp : list F)
    (fuel i : nat) :
  1 <= i <= length xp -> length xp <= i + fuel ->
  (forall a, xp !! (i - 1) = Some a -> fle a v = true) ->
  i - 1 <= interp_search v xp i fuel < length xp
  /\ (forall a, xp !! interp_search v xp i fuel = Some a -> fle a v = true)
  /\ (forall b, xp !! S (interp_search v xp i fuel) = Some b ->
        fle b v = false).
Proof.
  revert i. induction fuel as [|fuel IH]; intros i Hi Hfuel Hprev.
  - simpl. replace (S (i - 1)) with i by lia.
    split; [lia |]. split; [assumption |].
    intros b Hb. apply lookup_lt_Some in Hb. lia.
  - simpl. destruct (xp !! i) as [a|] eqn:Ha.
    + destruct (fle a v) eqn:Hav.
      * pose proof (lookup_lt_Some _ _ _ Ha) as Hlt.
        destruct (IH (S i)) as (Hj & Hle & Hgt); try lia.
        { simpl. rewrite Nat.sub_0_r. intros a' Ha'. congruence. }
        split; [lia |]. split; assumption.
      * replace (S (i - 1)) with i by lia.
        split; [lia |]. split; [assumption |].
        intros b Hb. congruence.
    + replace (S (i - 1)) with i by lia.
      split; [lia |]. split; [assumption |].
      intros b Hb. congruence.
Qed.


(** ** The chain a builder returns *)

Section Settled.

Context {F : Type} `{Scalar F}.
Variable pop_on : bool -> bool.
Variables x y : list F.

Lemma settled_tail (p : nat) (s : list nat) :
  settled pop_on x y (p :: s) -> settled pop_on x y s.
Proof. now intros [_ Hs]. Qed.

(** The [while] loop stops at a stack that stays settled under the
    upcoming point. *)
Lemma chain_pop_settled (i : nat) (s s' : list nat) :
  settled pop_on x y s -> chain_pop pop_on x y s i = Ok s' ->
  settled pop_on x y (i :: s').
Proof.
  revert s'. induction s as [|q s IH]; intros s' Hs Hpop.
  - injection Hpop as <-. now split.
  - destruct s as [|r t].
    + injection Hpop as <-. now split.
    + rewrite chain_pop_unfold in Hpop.
      apply bind_Ok_inv in Hpop as (b & Hb & Hpop). destruct b.
      * apply IH; [exact (settled_tail _ _ Hs) | assumption].
      * injection Hpop as <-. split; assumption.
Qed.

Lemma chain_each_settled (idx : list nat) (s s2 : list nat) :
  settled pop_on x y s -> chain_each pop_on x y s idx = Ok s2 ->
  settled pop_on x y s2.
Proof.
  revert s. induction idx as [|i idx IH]; intros s Hs Hc.
  - now injection Hc as <-.
  - simpl in Hc. apply bind_Ok_inv in Hc as (s1 & Hstep & Hc).
    unfold chain_step in Hstep.
    apply bind_Ok_inv in Hstep as (s' & Hpop & Hstep). injection Hstep as <-.
    exact (IH _ (chain_pop_settled _ _ _ Hs Hpop) Hc).
Qed.

Lemma chain_settled (k : nat) (s : list nat) :
  chain pop_on x y k = Ok s -> settled pop_on x y s.
Proof.
  apply chain_each_settled. repeat split.
Qed.

Lemma settled_lookup (s : list nat) (k p q r : nat) :
  settled pop_on x y s ->
  s !! k = Some p -> s !! S k = Some q -> s !! S (S k) = Some r ->
  turn pop_on x y r q p = Ok false.
Proof.
  revert k. induction s as [|p0 s IH]; intros k Hs Hp Hq Hr; [discriminate |].
  destruct k as [|k].
  - destruct s as [|q0 [|r0 t]]; try discriminate.
    simpl in Hp, Hq, Hr. injection Hp as <-. injection Hq as <-.
    injection Hr as <-. exact (proj1 Hs).
  - exact (IH k (settled_tail _ _ Hs) Hp Hq Hr).
Qed.

(** The test at three positions is the turn predicate at their points. *)
Lemma turn_values (r q p : nat) (x1 y1 x2 y2 x3 y3 : F) :
  x !! r = Some x1 -> y !! r = Some y1 ->
  x !! q = Some x2 -> y !! q = Some y2 ->
  x !! p = Some x3 -> y !! p = Some y3 ->
  turn pop_on x y r q p
  = (t ← left_turn_for_convex_hull x1 y1 x2 y2 x3 y3; Ok (pop_on t)).
Proof.
  intros Hx1 Hy1 Hx2 Hy2 Hx3 Hy3. unfold turn.
  rewrite (getitem_Some _ _ _ Hx1), (getitem_Some _ _ _ Hy1).
  rewrite (getitem_Some _ _ _ Hx2), (getitem_Some _ _ _ Hy2).
  rewrite (getitem_Some _ _ _ Hx3), (getitem_Some _ _ _ Hy3).
  reflexivity.
Qed.

(** The test answers only at three points of the input. *)
Lemma discarded_points (r q p : nat) (b : bool) :
  turn pop_on x y r q p = Ok b ->
  exists x1 y1 x2 y2 x3 y3 t,
    (x !! r = Some x1 /\ y !! r = Some y1
     /\ x !! q = Some x2 /\ y !! q = Some y2
     /\ x !! p = Some x3 /\ y !! p = Some y3)
    /\ left_turn_for_convex_hull x1 y1 x2 y2 x3 y3 = Ok t
    /\ pop_on t = b.
Proof.
  unfold turn. intros Hturn.
  apply bind_Ok_inv in Hturn as (x1 & Hx1 & Hturn).
  apply bind_Ok_inv in Hturn as (y1 & Hy1 & Hturn).
  apply bind_Ok_inv in Hturn as (x2 & Hx2 & Hturn).
  apply bind_Ok_inv in Hturn as (y2 & Hy2 & Hturn).
  apply bind_Ok_inv in Hturn as (x3 & Hx3 & Hturn).
  apply bind_Ok_inv in Hturn as (y3 & Hy3 & Hturn).
  apply bind_Ok_inv in Hturn as (t & Ht & Hturn).
  injection Hturn as Hpop.
  apply getitem_Ok_inv in Hx1, Hy1, Hx2, Hy2, Hx3, Hy3.
  exists x1, y1, x2, y2, x3, y3, t. repeat split; assumption.
Qed.

End Settled.

Section Convexity.

Context {F : Type} `{ScalarLaws F}.

(** At three consecutive points of the chain a builder returns, its
    [while] test answers "do not pop". *)
Lemma convex_hull_settled (pop_on : bool -> bool) (x y : list F) :
  valid_input x y ->
  exists hx hy,
    convex_hull pop_on x y = Ok (hx, hy)
    /\ forall (k : nat) (x1 y1 x2 y2 x3 y3 : F),
        hx !! k = Some x1 -> hy !! k = Some y1 ->
        hx !! S k = Some x2 -> hy !! S k = Some y2 ->
        hx !! S (S k) = Some x3 -> hy !! S (S k) = Some y3 ->
        exists t,
          left_turn_for_convex_hull x1 y1 x2 y2 x3 y3 = Ok t
          /\ pop_on t = false.
Proof.
  intros Hvalid.
  destruct (convex_hull_chain pop_on x y Hvalid)
    as (s & hx & hy & Hchain & Hs & Hl & Hhull & Hx & Hy).
  exists hx, hy. split; [assumption |].
  pose proof (chain_settled pop_on x y _ _ Hchain) as Hset.
  intros k x1 y1 x2 y2 x3 y3 Hx1 Hy1 Hx2 Hy2 Hx3 Hy3.
  destruct (Forall2_lookup_r _ _ _ _ _ Hx Hx1) as (j1 & Hj1 & Hxj1).
  destruct (Forall2_lookup_r _ _ _ _ _ Hx Hx2) as (j2 & Hj2 & Hxj2).
  destruct (Forall2_lookup_r _ _ _ _ _ Hx Hx3) as (j3 & Hj3 & Hxj3).
  destruct (Forall2_lookup_r _ _ _ _ _ Hy Hy1) as (j1' & Hj1' & Hyj1).
  destruct (Forall2_lookup_r _ _ _ _ _ Hy Hy2) as (j2' & Hj2' & Hyj2).
  destruct (Forall2_lookup_r _ _ _ _ _ Hy Hy3) as (j3' & Hj3' & Hyj3).
  rewrite Hj1 in Hj1'. injection Hj1' as <-.
  rewrite Hj2 in Hj2'. injection Hj2' as <-.
  rewrite Hj3 in Hj3'. injection Hj3' as <-.
  apply reverse_lookup_Some in Hj1 as [Hj1 Hk1], Hj2 as [Hj2 Hk2],
      Hj3 as [Hj3 Hk3].
  pose proof (settled_lookup pop_on x y s (length s - S (S (S k))) j3 j2 j1 Hset)
    as Hturn.
  replace (S (length s - S (S (S k)))) with (length s - S (S k)) in Hturn by lia.
  replace (S (length s - S (S k))) with (length s - S k) in Hturn by lia.
  specialize (Hturn Hj3 Hj2 Hj1).
  rewrite (turn_values pop_on x y j1 j2 j3 x1 y1 x2 y2 x3 y3) in Hturn
    by assumption.
  apply bind_Ok_inv in Hturn as (t & Ht & Hpop). injection Hpop as Hpop.
  now exists t.
Qed.

End Convexity.

(** X1.  On valid input the chain a builder returns is convex in its
    orientation: the turn predicate answers false at every three
    consecutive points of the upper hull, and true at every three
    consecutive points of the lower hull. *)
Theorem hull_chain_convex {F : Type} `{ScalarLaws F} (x y : list F) :
  valid_input x y ->
  (exists hx hy,
      upper_convex_hull x y = Ok (hx, hy) /\ chain_turns false hx hy)
  /\ (exists hx hy,
      lower_convex_hull x y = Ok (hx, hy) /\ chain_turns true hx hy).
Proof.
  intros Hvalid. split.
  - destruct (convex_hull_settled (fun t => t) x y Hvalid)
      as (hx & hy & Hhull & Hturn).
    exists hx, hy. split; [assumption |].
    intros k x1 y1 x2 y2 x3 y3 Hx1 Hy1 Hx2 Hy2 Hx3 Hy3.
    destruct (Hturn k x1 y1 x2 y2 x3 y3) as (t & Ht & Hpop); try assumption.
    now subst t.
  - destruct (convex_hull_settled negb x y Hvalid)
      as (hx & hy & Hhull & Hturn).
    exists hx, hy. split; [assumption |].
    intros k x1 y1 x2 y2 x3 y3 Hx1 Hy1 Hx2 Hy2 Hx3 Hy3.
    destruct (Hturn k x1 y1 x2 y2 x3 y3) as (t & Ht & Hpop); try assumption.
    apply negb_false_iff in Hpop. now subst t.
Qed.

Lemma hull_chain_convex_witness :
  (exists hx hy,
      upper_convex_hull scenario_x scenario_y = Ok (hx, hy)
      /\ chain_turns false hx hy)
  /\ (exists hx hy,
      lower_convex_hull scenario_x scenario_y = Ok (hx, hy)
      /\ chain_turns true hx hy).
Proof.
  apply (hull_chain_convex (F:=float) scenario_x scenario_y).
  split; [reflexivity | split; [simpl; lia | reflexivity]].
Defined.

(** ** No point leaves the hull but by the test *)

Section Sifted.

Context {F : Type} `{Scalar F}.
Variable pop_on : bool -> bool.
Variables x y : list F.

(** The [while] loop removes from the stack only points its test
    discards. *)
Lemma chain_pop_sifted (i q : nat) (s s' : list nat) :
  stack_upto q s -> q < i ->
  (forall j, j <= q -> j ∈ s \/ discarded pop_on x y j) ->
  chain_pop pop_on x y s i = Ok s' ->
  forall j, j <= q -> j ∈ s' \/ discarded pop_on x y j.
Proof.
  intros Hs. revert s'.
  induction Hs as [|q r s Hrq Hs IH]; intros s' Hqi Hsift Hpop.
  - injection Hpop as <-. assumption.
  - destruct (stack_upto_head _ _ Hs) as [t ->].
    rewrite chain_pop_unfold in Hpop.
    apply bind_Ok_inv in Hpop as ([|] & Hturn & Hpop).
    + pose proof (stack_upto_bound _ _ Hs) as Hb. rewrite Forall_forall in Hb.
      assert (forall j, j <= r -> j ∈ r :: t \/ discarded pop_on x y j) as Hsift'.
      { intros j Hj. destruct (Hsift j ltac:(lia)) as [Hin|Hd]; [|now right].
        left. apply elem_of_cons in Hin as [->|Hin]; [lia | assumption]. }
      intros j Hj. destruct (decide (j <= r)) as [Hjr|Hjr].
      * apply (IH s'); try assumption; lia.
      * right. destruct (decide (j = q)) as [->|Hne].
        -- exists r, i. split; [lia | assumption].
        -- destruct (Hsift j Hj) as [Hin|Hd]; [|assumption].
           apply elem_of_cons in Hin as [->|Hin]; [lia |].
           specialize (Hb j Hin). lia.
    + injection Hpop as <-. assumption.
Qed.

Lemma chain_each_sifted (m q : nat) (s s2 : list nat) :
  stack_upto q s ->
  (forall j, j <= q -> j ∈ s \/ discarded pop_on x y j) ->
  chain_each pop_on x y s (seq (S q) m) = Ok s2 ->
  forall j, j <= q + m -> j ∈ s2 \/ discarded pop_on x y j.
Proof.
  revert q s. induction m as [|m IH]; intros q s Hs Hsift Hc j Hj.
  - injection Hc as <-. apply Hsift. lia.
  - cbn [seq chain_each] in Hc.
    apply bind_Ok_inv in Hc as (s1 & Hstep & Hc).
    unfold chain_step in Hstep.
    apply bind_Ok_inv in Hstep as (s' & Hpop & Hstep).
    injection Hstep as <-.
    destruct (chain_pop_stack pop_on x y _ _ _ _ Hs Hpop)
      as (q' & l & Hq' & Hs' & _).
    apply (IH (S q) (S q :: s')); try assumption; try lia.
    + apply (stack_cons (S q) q'); [lia | assumption].
    + intros j' Hj'. destruct (decide (j' = S q)) as [->|Hne].
      * left. apply elem_of_cons. now left.
      * destruct (chain_pop_sifted (S q) q s s' Hs ltac:(lia) Hsift Hpop j'
                    ltac:(lia)) as [Hin|Hd]; [|now right].
        left. apply elem_of_cons. now right.
Qed.

Lemma chain_sifted (k : nat) (s : list nat) :
  2 <= k -> chain pop_on x y k = Ok s ->
  forall j, j < k -> j ∈ s \/ discarded pop_on x y j.
Proof.
  intros Hk Hc j Hj. unfold chain in Hc.
  apply (chain_each_sifted (k - 2) 1 [1; 0] s); try assumption; try lia.
  - apply (stack_cons 1 0); [lia | constructor].
  - intros j' Hj'. left. destruct j' as [|[|j']]; [| |lia].
    + apply elem_of_cons. right. apply elem_of_cons. now left.
    + apply elem_of_cons. now left.
Qed.

End Sifted.

(** On valid input every point is on the hull a builder returns, unless the
    builder's test discarded it; the two end points are on the hull. *)
Lemma convex_hull_sifted {F : Type} `{ScalarLaws F} (pop_on : bool -> bool)
    (x y : list F) :
  valid_input x y ->
  exists idx hx hy,
    convex_hull pop_on x y = Ok (hx, hy)
    /\ points_at x y idx hx hy
    /\ ascending idx
    /\ 0 ∈ idx /\ (length x - 1) ∈ idx
    /\ forall j, j < length x -> j ∈ idx \/ discarded pop_on x y j.
Proof.
  intros Hvalid. pose proof Hvalid as (_ & Hn & _).
  destruct (convex_hull_chain pop_on x y Hvalid)
    as (s & hx & hy & Hchain & Hs & Hl & Hhull & Hx & Hy).
  exists (reverse s), hx, hy. split; [assumption |].
  split; [split; assumption |].
  split; [exact (stack_upto_ascending _ _ Hs) |].
  split; [|split].
  - apply elem_of_reverse, last_Some_elem_of.
    exact (stack_upto_last _ _ Hs).
  - apply elem_of_reverse. destruct (stack_upto_head _ _ Hs) as [t ->].
    apply elem_of_cons. now left.
  - intros j Hj.
    destruct (chain_sifted pop_on x y (length x) s ltac:(lia) Hchain j Hj)
      as [Hin|Hd]; [left; now apply elem_of_reverse | now right].
Qed.

(** X5.  No point leaves the hull but by the test.  On valid input every
    input point is a point of the hull a builder returns, or the builder's
    test discarded it: between an input point before it and an input point
    after it, the turn predicate answered True in [upper_convex_hull], False
    in [lower_convex_hull].  The two end points are always on the hull. *)
Theorem hull_keeps_or_discards {F : Type} `{ScalarLaws F} (x y : list F) :
  valid_input x y ->
  (exists idx hx hy,
      upper_convex_hull x y = Ok (hx, hy)
      /\ points_at x y idx hx hy
      /\ 0 ∈ idx /\ (length x - 1) ∈ idx
      /\ forall j, j < length x ->
           j ∈ idx
           \/ exists r i x1 y1 x2 y2 x3 y3,
                r < j < i
                /\ x !! r = Some x1 /\ y !! r = Some y1
                /\ x !! j = Some x2 /\ y !! j = Some y2
                /\ x !! i = Some x3 /\ y !! i = Some y3
                /\ left_turn_for_convex_hull x1 y1 x2 y2 x3 y3 = Ok true)
  /\ (exists idx hx hy,
      lower_convex_hull x y = Ok (hx, hy)
      /\ points_at x y idx hx hy
      /\ 0 ∈ idx /\ (length x - 1) ∈ idx
      /\ forall j, j < length x ->
           j ∈ idx
           \/ exists r i x1 y1 x2 y2 x3 y3,
                r < j < i
                /\ x !! r = Some x1 /\ y !! r = Some y1
                /\ x !! j = Some x2 /\ y !! j = Some y2
                /\ x !! i = Some x3 /\ y !! i = Some y3
                /\ left_turn_for_convex_hull x1 y1 x2 y2 x3 y3 = Ok false).
Proof.
  intros Hvalid. split.
  - destruct (convex_hull_sifted (fun t => t) x y Hvalid)
      as (idx & hx & hy & Hhull & Hpts & _ & Hfirst & Hlast & Hsift).
    exists idx, hx, hy.
    refine (conj Hhull (conj Hpts (conj Hfirst (conj Hlast _)))).
    intros j Hj. destruct (Hsift j Hj) as [Hin|(r & i & Hrji & Hturn)];
      [now left | right].
    destruct (discarded_points (fun t => t) x y r j i true Hturn)
      as (x1 & y1 & x2 & y2 & x3 & y3 & t & Hp & Ht & Hpop).
    subst t. exists r, i, x1, y1, x2, y2, x3, y3. tauto.
  - destruct (convex_hull_sifted negb x y Hvalid)
      as (idx & hx & hy & Hhull & Hpts & _ & Hfirst & Hlast & Hsift).
    exists idx, hx, hy.
    refine (conj Hhull (conj Hpts (conj Hfirst (conj Hlast _)))).
    intros j Hj. destruct (Hsift j Hj) as [Hin|(r & i & Hrji & Hturn)];
      [now left | right].
    destruct (discarded_points negb x y r j i true Hturn)
      as (x1 & y1 & x2 & y2 & x3 & y3 & t & Hp & Ht & Hpop).
    apply negb_true_iff in Hpop. subst t.
    exists r, i, x1, y1, x2, y2, x3, y3. tauto.
Qed.

Lemma hull_keeps_or_discards_witness :
  exists idx hx hy,
    lower_convex_hull scenario_x scenario_y = Ok (hx, hy)
    /\ points_at scenario_x scenario_y idx hx hy
    /\ 0 ∈ idx /\ 4 ∈ idx
    /\ forall j, j < 5 ->
         j ∈ idx
         \/ exists r i x1 y1 x2 y2 x3 y3,
              r < j < i
              /\ scenario_x !! r = Some x1 /\ scenario_y !! r = Some y1
              /\ scenario_x !! j = Some x2 /\ scenario_y !! j = Some y2
              /\ scenario_x !! i = Some x3 /\ scenario_y !! i = Some y3
              /\ left_turn_for_convex_hull x1 y1 x2 y2 x3 y3 = Ok false.
Proof.
  apply (hull_keeps_or_discards (F:=float) scenario_x scenario_y).
  split; [reflexivity | split; [simpl; lia | reflexivity]].
Defined.

(** ** A hull is its own hull *)

Section Unpopped.

Context {F : Type} `{Scalar F}.
Variable pop_on : bool -> bool.
Variables x y : list F.
Hypothesis Hrest :
  forall i, 2 <= i < length x ->
    turn pop_on x y (i - 2) (i - 1) i = Ok false.

Lemma reverse_seq_S (n : nat) :
  reverse (seq 0 (S n)) = n :: reverse (seq 0 n).
Proof. now rewrite seq_S, reverse_snoc. Qed.

(** When no three consecutive input points pass the [while] test, nothing
    is popped: the stack is the whole range of positions. *)
Lemma chain_each_unpopped (m q : nat) :
  1 <= q -> S q + m <= length x ->
  chain_each pop_on x y (reverse (seq 0 (S q))) (seq (S q) m)
  = Ok (reverse (seq 0 (S q + m))).
Proof.
  revert q. induction m as [|m IH]; intros q Hq Hle.
  - now rewrite Nat.add_0_r.
  - change (seq (S q) (S m)) with (S q :: seq (S (S q)) m).
    cbn [chain_each]. unfold chain_step.
    destruct q as [|q']; [lia |].
    rewrite (reverse_seq_S (S q')), (reverse_seq_S q'), chain_pop_unfold.
    pose proof (Hrest (S (S q')) ltac:(lia)) as Hturn.
    simpl in Hturn. rewrite Nat.sub_0_r in Hturn. rewrite Hturn.
    rewrite !bind_Ok, <- (reverse_seq_S q'), <- (reverse_seq_S (S q')).
    rewrite <- (reverse_seq_S (S (S q'))).
    rewrite (IH (S (S q'))) by lia.
    now replace (S (S q') + S m) with (S (S (S q')) + m) by lia.
Qed.

Lemma chain_unpopped (k : nat) :
  2 <= k <= length x ->
  chain pop_on x y k = Ok (reverse (seq 0 k)).
Proof.
  intros Hk. unfold chain.
  change [1; 0] with (reverse (seq 0 2)).
  rewrite (chain_each_unpopped (k - 2) 1) by lia.
  now replace (2 + (k - 2)) with k by lia.
Qed.

End Unpopped.

Section Idempotent.

Context {F : Type} `{ScalarLaws F}.

(** A builder returns a valid input unchanged when its [while] test fails
    at every three consecutive points. *)
Lemma convex_hull_fixed (pop_on : bool -> bool) (x y : list F) :
  valid_input x y ->
  (forall (k : nat) (x1 y1 x2 y2 x3 y3 : F),
      x !! k = Some x1 -> y !! k = Some y1 ->
      x !! S k = Some x2 -> y !! S k = Some y2 ->
      x !! S (S k) = Some x3 -> y !! S (S k) = Some y3 ->
      exists t,
        left_turn_for_convex_hull x1 y1 x2 y2 x3 y3 = Ok t
        /\ pop_on t = false) ->
  convex_hull pop_on x y = Ok (x, y).
Proof.
  intros Hvalid Hturns. pose proof Hvalid as (Hlen & Hn & _).
  assert (forall i, 2 <= i < length x ->
             turn pop_on x y (i - 2) (i - 1) i = Ok false) as Hrest.
  { intros i Hi.
    destruct (lookup_lt_is_Some_2 x (i - 2) ltac:(lia)) as [x1 Hx1].
    destruct (lookup_lt_is_Some_2 y (i - 2) ltac:(lia)) as [y1 Hy1].
    destruct (lookup_lt_is_Some_2 x (i - 1) ltac:(lia)) as [x2 Hx2].
    destruct (lookup_lt_is_Some_2 y (i - 1) ltac:(lia)) as [y2 Hy2].
    destruct (lookup_lt_is_Some_2 x i ltac:(lia)) as [x3 Hx3].
    destruct (lookup_lt_is_Some_2 y i ltac:(lia)) as [y3 Hy3].
    rewrite (turn_values pop_on x y _ _ _ x1 y1 x2 y2 x3 y3) by assumption.
    destruct (Hturns (i - 2) x1 y1 x2 y2 x3 y3) as (t & -> & Hpop);
      try assumption.
    - now replace (S (i - 2)) with (i - 1) by lia.
    - now replace (S (i - 2)) with (i - 1) by lia.
    - now replace (S (S (i - 2))) with i by lia.
    - now replace (S (S (i - 2))) with i by lia.
    - rewrite bind_Ok. now rewrite Hpop. }
  destruct (convex_hull_chain pop_on x y Hvalid)
    as (s & hx & hy & Hchain & _ & _ & Hhull & Hx & Hy).
  rewrite (chain_unpopped pop_on x y Hrest (length x) ltac:(lia)) in Hchain.
  injection Hchain as <-. rewrite reverse_involutive in Hx, Hy.
  rewrite Hhull. do 2 f_equal.
  - apply list_eq. intros i.
    destruct (decide (i < length x)) as [Hi|Hi].
    + destruct (Forall2_lookup_l _ _ _ _ _ Hx (lookup_seq_lt 0 _ i Hi))
        as (v & Hv & Hxi).
      simpl in Hxi. congruence.
    + apply Forall2_length in Hx. rewrite length_seq in Hx.
      rewrite !lookup_ge_None_2 by lia. reflexivity.
  - apply list_eq. intros i.
    destruct (decide (i < length x)) as [Hi|Hi].
    + destruct (Forall2_lookup_l _ _ _ _ _ Hy (lookup_seq_lt 0 _ i Hi))
        as (v & Hv & Hyi).
      simpl in Hyi. congruence.
    + apply Forall2_length in Hy. rewrite length_seq in Hy.
      rewrite !lookup_ge_None_2 by lia. reflexivity.
Qed.

(** What a builder does with its own result. *)
Lemma convex_hull_twice (pop_on : bool -> bool) (x y : list F) :
  valid_input x y ->
  exists hx hy,
    convex_hull pop_on x y = Ok (hx, hy)
    /\ (2 < length hx -> convex_hull pop_on hx hy = Ok (hx, hy))
    /\ (length hx <= 2 -> convex_hull pop_on hx hy = Raise SizeError).
Proof.
  intros Hvalid.
  destruct (convex_hull_valid pop_on x y Hvalid)
    as (idx & hx & hy & Hhull & Hpts & Hasc & _).
  destruct (convex_hull_settled pop_on x y Hvalid)
    as (hx' & hy' & Hhull' & Hturn).
  rewrite Hhull in Hhull'. injection Hhull' as <- <-.
  exists hx, hy. split; [assumption |].
  assert (length hx = length hy) as Hlen.
  { destruct Hpts as [Hx Hy]. apply Forall2_length in Hx, Hy. congruence. }
  split.
  - intros Hn. apply convex_hull_fixed; [|assumption].
    split; [assumption | split; [assumption |]].
    apply (points_at_increasing x y idx hx hy); try assumption.
    apply Hvalid.
  - intros Hn. now apply convex_hull_SizeError.
Qed.

End Idempotent.

(** X2.  A hull is its own hull.  On valid input, either builder run
    again on the hull it returned gives that hull back when it has more
    than two points, and fails with the size error when it has two. *)
Theorem hull_of_hull {F : Type} `{ScalarLaws F} (x y : list F) :
  valid_input x y ->
  (exists hx hy,
      upper_convex_hull x y = Ok (hx, hy)
      /\ (2 < length hx -> upper_convex_hull hx hy = Ok (hx, hy))
      /\ (length hx <= 2 -> upper_convex_hull hx hy = Raise SizeError))
  /\ (exists hx hy,
      lower_convex_hull x y = Ok (hx, hy)
      /\ (2 < length hx -> lower_convex_hull hx hy = Ok (hx, hy))
      /\ (length hx <= 2 -> lower_convex_hull hx hy = Raise SizeError)).
Proof.
  intros Hvalid. split; now apply convex_hull_twice.
Qed.

Lemma hull_of_hull_witness :
  (exists hx hy,
      upper_convex_hull scenario_x scenario_y = Ok (hx, hy)
      /\ (2 < length hx -> upper_convex_hull hx hy = Ok (hx, hy))
      /\ (length hx <= 2 -> upper_convex_hull hx hy = Raise SizeError))
  /\ (exists hx hy,
      lower_convex_hull scenario_x scenario_y = Ok (hx, hy)
      /\ (2 < length hx -> lower_convex_hull hx hy = Ok (hx, hy))
      /\ (length hx <= 2 -> lower_convex_hull hx hy = Raise SizeError)).
Proof.
  apply (hull_of_hull (F:=float) scenario_x scenario_y).
  split; [reflexivity | split; [simpl; lia | reflexivity]].
Defined.

(** ** A repeated abscissa *)

Section ZeroGap.

Context {F : Type} `{Scalar F}.
Variable pop_on : bool -> bool.
Variables x y : list F.
Hypothesis Hlen : length x = length y.

Lemma left_turn_raises_zero (x1 y1 x2 y2 x3 y3 : F) :
  raises_only (eq ZeroDivisionError)
    (left_turn_for_convex_hull x1 y1 x2 y2 x3 y3).
Proof.
  unfold left_turn_for_convex_hull, scalar_div.
  destruct (feq (fsub x2 x1) fzero); [reflexivity |]. rewrite bind_Ok.
  destruct (feq (fsub x3 x2) fzero); [reflexivity | exact I].
Qed.

(** The turn predicate fails as soon as one of its two gaps compares equal
    to zero. *)
Lemma left_turn_zero_gap (x1 y1 x2 y2 x3 y3 : F) :
  feq (fsub x2 x1) fzero = true \/ feq (fsub x3 x2) fzero = true ->
  left_turn_for_convex_hull x1 y1 x2 y2 x3 y3 = Raise ZeroDivisionError.
Proof.
  intros Hgap. unfold left_turn_for_convex_hull, scalar_div.
  destruct (feq (fsub x2 x1) fzero); [reflexivity |]. rewrite bind_Ok.
  destruct Hgap as [Hgap|Hgap]; [discriminate |]. now rewrite Hgap.
Qed.

Lemma turn_raises_zero (r q i : nat) :
  r < length x -> q < length x -> i < length x ->
  raises_only (eq ZeroDivisionError) (turn pop_on x y r q i).
Proof.
  intros Hr Hq Hi.
  destruct (lookup_lt_is_Some_2 x r Hr) as [x1 Hx1].
  destruct (lookup_lt_is_Some_2 y r ltac:(lia)) as [y1 Hy1].
  destruct (lookup_lt_is_Some_2 x q Hq) as [x2 Hx2].
  destruct (lookup_lt_is_Some_2 y q ltac:(lia)) as [y2 Hy2].
  destruct (lookup_lt_is_Some_2 x i Hi) as [x3 Hx3].
  destruct (lookup_lt_is_Some_2 y i ltac:(lia)) as [y3 Hy3].
  rewrite (turn_values pop_on x y r q i x1 y1 x2 y2 x3 y3) by assumption.
  apply raises_only_bind; [apply left_turn_raises_zero | intros t; exact I].
Qed.

Lemma turn_zero_gap (r q i : nat) (a b c : F) :
  r < length x -> q < length x -> i < length x ->
  x !! r = Some a -> x !! q = Some b -> x !! i = Some c ->
  feq (fsub b a) fzero = true \/ feq (fsub c b) fzero = true ->
  turn pop_on x y r q i = Raise ZeroDivisionError.
Proof.
  intros Hr Hq Hi Ha Hb Hc Hgap.
  destruct (lookup_lt_is_Some_2 y r ltac:(lia)) as [y1 Hy1].
  destruct (lookup_lt_is_Some_2 y q ltac:(lia)) as [y2 Hy2].
  destruct (lookup_lt_is_Some_2 y i ltac:(lia)) as [y3 Hy3].
  rewrite (turn_values pop_on x y r q i a y1 b y2 c y3) by assumption.
  now rewrite left_turn_zero_gap.
Qed.

Lemma chain_pop_raises_zero (q i : nat) (s : list nat) :
  stack_upto q s -> q < i -> i < length x ->
  raises_only (eq ZeroDivisionError) (chain_pop pop_on x y s i).
Proof.
  intros Hs. induction Hs as [|q r s Hrq Hs IH]; intros Hqi Hi; [exact I |].
  destruct (stack_upto_head _ _ Hs) as [t ->].
  rewrite chain_pop_unfold.
  apply raises_only_bind; [apply turn_raises_zero; lia |].
  intros [|]; [apply IH; lia | exact I].
Qed.

(** The loop fails at the latest when it reaches the point after a zero
    gap. *)
Lemma chain_each_zero_gap (m q d : nat) (s : list nat) (a b : F) :
  stack_upto q s -> 2 <= length s -> S q + m <= length x ->
  q <= d -> d < q + m ->
  x !! d = Some a -> x !! S d = Some b -> feq (fsub b a) fzero = true ->
  chain_each pop_on x y s (seq (S q) m) = Raise ZeroDivisionError.
Proof.
  revert q s. induction m as [|m IH];
    intros q s Hs Hl Hle Hqd Hdm Ha Hb Hgap; [lia |].
  cbn [seq chain_each]. unfold chain_step.
  destruct (decide (d = q)) as [->|Hne].
  - destruct Hs as [|q r s Hrq Hs]; [simpl in Hl; lia |].
    destruct (stack_upto_head _ _ Hs) as [t ->].
    rewrite chain_pop_unfold.
    destruct (lookup_lt_is_Some_2 x r ltac:(lia)) as [c Hc].
    rewrite (turn_zero_gap r q (S q) c a b); try assumption; try lia.
    + reflexivity.
    + now right.
  - pose proof (chain_pop_raises_zero q (S q) s Hs ltac:(lia) ltac:(lia))
      as Hraise.
    destruct (chain_pop pop_on x y s (S q)) as [s'|e] eqn:Hpop;
      [|simpl in Hraise; now subst e].
    rewrite !bind_Ok.
    assert (chain_step pop_on x y s (S q) = Ok (S q :: s')) as Hstep
      by (unfold chain_step; now rewrite Hpop).
    destruct (chain_step_stack pop_on x y _ _ _ _ Hs (Nat.lt_succ_diag_r q) Hstep)
      as [Hs1 Hl1].
    apply (IH (S q) (S q :: s')); try assumption; lia.
Qed.

Lemma chain_zero_gap (d : nat) (a b : F) :
  2 < length x ->
  x !! d = Some a -> x !! S d = Some b -> feq (fsub b a) fzero = true ->
  chain pop_on x y (length x) = Raise ZeroDivisionError.
Proof.
  intros Hn Ha Hb Hgap. unfold chain.
  pose proof (lookup_lt_Some _ _ _ Hb) as Hd.
  destruct d as [|d].
  - replace (length x - 2) with (S (length x - 3)) by lia.
    cbn [seq chain_each]. unfold chain_step. rewrite chain_pop_unfold.
    destruct (lookup_lt_is_Some_2 x 2 ltac:(lia)) as [c Hc].
    rewrite (turn_zero_gap 0 1 2 a b c); try assumption; try lia.
    + reflexivity.
    + now left.
  - apply (chain_each_zero_gap (length x - 2) 1 (S d) [1; 0] a b);
      try assumption; try lia; try (simpl; lia).
    apply (stack_cons 1 0); [lia | constructor].
Qed.

Lemma convex_hull_zero_gap (d : nat) (a b : F) :
  2 < length x ->
  x !! d = Some a -> x !! S d = Some b -> feq (fsub b a) fzero = true ->
  convex_hull pop_on x y = Raise ZeroDivisionError.
Proof.
  intros Hn Ha Hb Hgap.
  pose proof (hull_loop_chain pop_on x y Hlen (length x) ltac:(lia)) as Hloop.
  rewrite (chain_zero_gap d a b Hn Ha Hb Hgap) in Hloop.
  unfold convex_hull. rewrite <- Hlen, Nat.eqb_refl. simpl negb. cbv iota.
  destruct (Nat.leb_spec (length x) 2) as [Hle|_]; [lia |].
  now rewrite Hloop.
Qed.

End ZeroGap.

(** X3.  A repeated abscissa is fatal.  Whenever the lengths pass both
    checks and two consecutive abscissas have a difference that compares
    equal to zero, either builder raises ZeroDivisionError, whatever the
    other points are. *)
Theorem hull_repeated_abscissa {F : Type} `{Scalar F} (x y : list F)
    (d : nat) (a b : F) :
  length x = length y -> 2 < length x ->
  x !! d = Some a -> x !! S d = Some b -> feq (fsub b a) fzero = true ->
  upper_convex_hull x y = Raise ZeroDivisionError
  /\ lower_convex_hull x y = Raise ZeroDivisionError.
Proof.
  intros Hlen Hn Ha Hb Hgap.
  split; now apply (convex_hull_zero_gap _ x y Hlen d a b).
Qed.

Lemma hull_repeated_abscissa_witness :
  upper_convex_hull [0; 1; 3; 3; 4]%float [0; 2; 1; 2; 0]%float
  = Raise ZeroDivisionError
  /\ lower_convex_hull [0; 1; 3; 3; 4]%float [0; 2; 1; 2; 0]%float
     = Raise ZeroDivisionError.
Proof.
  apply (hull_repeated_abscissa (F:=float)
           [0; 1; 3; 3; 4]%float [0; 2; 1; 2; 0]%float 2 3%float 3%float);
    reflexivity || (simpl; lia).
Defined.

(** ** The comparisons of binary64 agree *)

Section Binary64Order.

Local Open Scope Z_scope.

Lemma SFcompare_swap (a b : spec_float) :
  SFcompare b a = option_map CompOpp (SFcompare a b).
Proof.
  destruct a as [sa|sa| |sa ma ea], b as [sb|sb| |sb mb eb];
    try reflexivity;
    try (destruct sa; reflexivity); try (destruct sb; reflexivity);
    try (destruct sa, sb; reflexivity).
  simpl. destruct sa, sb; try reflexivity;
    rewrite (Z.compare_antisym ea eb); destruct (ea ?= eb); simpl;
    try reflexivity;
    rewrite (Pos.compare_cont_antisym ma mb Eq); reflexivity.
Qed.

Lemma SFltb_SFleb (a b : spec_float) : SFltb a b = true -> SFleb a b = true.
Proof. unfold SFltb, SFleb. destruct (SFcompare a b) as [[| |]|]; congruence. Qed.

Lemma SFltb_not_SFleb (a b : spec_float) :
  SFltb a b = true -> SFleb b a = false.
Proof.
  unfold SFltb, SFleb. rewrite (SFcompare_swap a b).
  destruct (SFcompare a b) as [[| |]|]; simpl; congruence.
Qed.

Lemma SFcompare_refl (a : spec_float) :
  a <> S754_nan -> SFcompare a a = Some Eq.
Proof.
  destruct a as [s|s| |s m e]; intros Hn; try contradiction;
    try (destruct s; reflexivity).
  simpl. rewrite Z.compare_refl.
  change (Pos.compare_cont Eq m m) with (Pos.compare m m).
  rewrite Pos.compare_refl. now destruct s.
Qed.

Lemma SFltb_not_nan (a b : spec_float) :
  SFltb a b = true -> a <> S754_nan /\ b <> S754_nan.
Proof.
  unfold SFltb. destruct a, b; simpl; try discriminate; split; discriminate.
Qed.

End Binary64Order.

Lemma float_compares (a : float) :
  Prim2SF a <> S754_nan ->
  PrimFloat.eqb a a = true /\ PrimFloat.leb a a = true
  /\ PrimFloat.is_nan a = false.
Proof.
  intros Hn. unfold PrimFloat.is_nan.
  rewrite FloatAxioms.eqb_spec, FloatAxioms.leb_spec.
  unfold SFeqb, SFleb. rewrite (SFcompare_refl _ Hn). auto.
Qed.

#[export] Instance float_order : ScalarOrder float.
Proof.
  split.
  - intros a b. simpl. rewrite FloatAxioms.ltb_spec, FloatAxioms.leb_spec.
    apply SFltb_SFleb.
  - intros a b. simpl. rewrite FloatAxioms.ltb_spec, FloatAxioms.leb_spec.
    apply SFltb_not_SFleb.
  - intros a b. simpl. rewrite FloatAxioms.ltb_spec. intros Hab.
    destruct (SFltb_not_nan _ _ Hab) as [Ha Hb].
    split; now apply float_compares.
Qed.

(** ** The continuum at the points of the hull *)

Lemma interp_search_bound {F : Type} `{Scalar F} (v : F) (xp : list F)
    (fuel i : nat) :
  1 <= i <= length xp ->
  i - 1 <= interp_search v xp i fuel < length xp.
Proof.
  revert i. induction fuel as [|fuel IH]; intros i Hi; simpl; [lia |].
  destruct (xp !! i) as [a|] eqn:Ha; [|lia].
  destruct (fle a v); [|lia].
  apply lookup_lt_Some in Ha. specialize (IH (S i) ltac:(lia)). lia.
Qed.

Section InterpTotal.

Context {F : Type} `{Scalar F}.
Variables xp fp : list F.
Hypothesis Hn : 1 <= length xp.
Hypothesis Hlen : length fp = length xp.

(** Over a nonempty table of samples [np.interp] has a value everywhere. *)
Lemma interp_at_Ok (v : F) : exists c, interp_at xp fp v = Ok c.
Proof.
  unfold interp_at. destruct (fisnan v); [eauto |].
  destruct (getitem_lt fp 0 ltac:(lia)) as (lval & _ & ->).
  destruct (getitem_lt fp (length xp - 1) ltac:(lia)) as (rval & _ & ->).
  destruct (getitem_lt xp 0 ltac:(lia)) as (x0 & _ & ->).
  destruct (getitem_lt xp (length xp - 1) ltac:(lia)) as (xn & _ & ->).
  rewrite !bind_Ok.
  destruct (flt xn v); [eauto |]. destruct (flt v x0); [eauto |].
  pose proof (interp_search_bound v xp (length xp) 1 ltac:(lia)) as Hj.
  set (j := interp_search v xp 1 (length xp)) in *.
  destruct (getitem_lt fp j ltac:(lia)) as (yj & _ & Hyj).
  destruct (Nat.eqb_spec j (length xp - 1)) as [Hjl|Hjl]; [eauto |].
  destruct (getitem_lt xp j ltac:(lia)) as (xj & _ & ->).
  rewrite Hyj, !bind_Ok. destruct (feq xj v); [eauto |].
  destruct (getitem_lt xp (S j) ltac:(lia)) as (xj1 & _ & ->).
  destruct (getitem_lt fp (S j) ltac:(lia)) as (yj1 & _ & ->).
  rewrite !bind_Ok.
  repeat match goal with
         | |- context [if ?c then _ else _] => destruct c
         end; eauto.
Qed.

Lemma interp_Ok (xs : list F) :
  exists cs,
    interp xs xp fp = Ok cs
    /\ length cs = length xs
    /\ forall (j : nat) (v : F), xs !! j = Some v ->
         exists c, cs !! j = Some c /\ interp_at xp fp v = Ok c.
Proof.
  induction xs as [|v xs (cs & Hcs & Hl & Hat)].
  - exists []. repeat split. intros j v Hv. discriminate.
  - destruct (interp_at_Ok v) as [c Hc].
    exists (c :: cs). simpl. rewrite Hc, Hcs, !bind_Ok.
    repeat split; [simpl; lia |].
    intros [|j] w Hw; simpl in Hw.
    + injection Hw as <-. eauto.
    + exact (Hat j w Hw).
Qed.

End InterpTotal.

(** Every abscissa of a strictly increasing table compares. *)
Lemma increasing_compares {F : Type} `{ScalarLaws F} `{!ScalarOrder F}
    (xp : list F) (p : nat) (v : F) :
  increasing xp = true -> 2 <= length xp ->
  xp !! p = Some v ->
  feq v v = true /\ fle v v = true /\ fisnan v = false.
Proof.
  intros Hinc Hn Hp. pose proof (lookup_lt_Some _ _ _ Hp) as Hlt.
  destruct p as [|p].
  - destruct (lookup_lt_is_Some_2 xp 1 ltac:(lia)) as [w Hw].
    exact (proj1 (flt_compares v w (increasing_lookup xp 0 1 v w Hinc
                                       ltac:(lia) Hp Hw))).
  - destruct (lookup_lt_is_Some_2 xp p ltac:(lia)) as [w Hw].
    exact (proj2 (flt_compares w v (increasing_lookup xp p (S p) w v Hinc
                                       ltac:(lia) Hw Hp))).
Qed.

Section InterpSample.

Context {F : Type} `{ScalarLaws F} `{!ScalarOrder F}.
Variables xp fp : list F.
Hypothesis Hinc : increasing xp = true.
Hypothesis Hn : 2 <= length xp.
Hypothesis Hlen : length fp = length xp.

(** At a sample point [np.interp] returns the sample. *)
Lemma interp_at_sample (p : nat) (v w : F) :
  xp !! p = Some v -> fp !! p = Some w -> interp_at xp fp v = Ok w.
Proof.
  intros Hp Hw. pose proof (lookup_lt_Some _ _ _ Hp) as Hlt.
  destruct (increasing_compares xp p v Hinc Hn Hp) as (Heq & Hle & Hnan).
  unfold interp_at. rewrite Hnan.
  destruct (getitem_lt fp 0 ltac:(lia)) as (lval & _ & ->).
  destruct (getitem_lt fp (length xp - 1) ltac:(lia)) as (rval & _ & ->).
  destruct (getitem_lt xp 0 ltac:(lia)) as (x0 & Hx0 & ->).
  destruct (getitem_lt xp (length xp - 1) ltac:(lia)) as (xn & Hxn & ->).
  rewrite !bind_Ok.
  assert (elem_of v xp) as Hv by (apply list_elem_of_lookup; eauto).
  destruct (increasing_extent xp v x0 xn Hinc Hv Hx0 Hxn) as [-> ->].
  assert (forall k a, k <= p -> xp !! k = Some a -> fle a v = true) as Hbefore.
  { intros k a Hk Ha. destruct (decide (k = p)) as [->|Hne].
    - rewrite Hp in Ha. now injection Ha as <-.
    - apply flt_fle, (increasing_lookup xp k p); try assumption. lia. }
  assert (forall k a, p < k -> xp !! k = Some a -> fle a v = false) as Hafter.
  { intros k a Hk Ha.
    apply flt_not_fle, (increasing_lookup xp p k); assumption. }
  destruct (interp_search_spec v xp (length xp) 1) as (Hj & Hjle & Hjgt);
    try lia.
  { simpl. intros a Ha. apply (Hbefore 0 a); [lia | assumption]. }
  set (j := interp_search v xp 1 (length xp)) in *.
  assert (j = p) as Hjp.
  { destruct (lt_eq_lt_dec j p) as [[Hlt'|Heq']|Hgt']; [exfalso | assumption | exfalso].
    - destruct (lookup_lt_is_Some_2 xp (S j) ltac:(lia)) as [a Ha].
      pose proof (Hjgt a Ha). pose proof (Hbefore (S j) a ltac:(lia) Ha).
      congruence.
    - destruct (lookup_lt_is_Some_2 xp j ltac:(lia)) as [a Ha].
      pose proof (Hjle a Ha). pose proof (Hafter j a Hgt' Ha). congruence. }
  rewrite Hjp.
  destruct (Nat.eqb_spec p (length xp - 1)) as [Hpl|Hpl];
    [now apply getitem_Some |].
  rewrite (getitem_Some _ _ _ Hp), (getitem_Some _ _ _ Hw), !bind_Ok.
  now rewrite Heq.
Qed.

End InterpSample.

Section Touches.

Context {F : Type} `{ScalarLaws F} `{!ScalarOrder F}.

(** The hull and the continuum of a valid window. *)
Lemma continuum_of_window (x y : list F) :
  valid_input x y ->
  exists hx hy c,
    upper_convex_hull x y = Ok (hx, hy)
    /\ interp x hx hy = Ok c
    /\ length c = length x
    /\ forall (j : nat) (v : F),
         x !! j = Some v -> v ∈ hx -> c !! j = y !! j.
Proof.
  intros Hvalid. pose proof Hvalid as (Hlen & Hn & Hinc).
  destruct (convex_hull_valid (fun t => t) x y Hvalid)
    as (idx & hx & hy & Hhull & Hpts & Hasc & _ & _ & Hl).
  pose proof Hpts as [Hx Hy].
  pose proof (Forall2_length _ _ _ Hx) as Hlx.
  pose proof (Forall2_length _ _ _ Hy) as Hly.
  pose proof (points_at_increasing x y idx hx hy Hinc Hasc Hpts) as Hhinc.
  destruct (interp_Ok hx hy ltac:(lia) ltac:(lia) x) as (c & Hc & Hlc & Hat).
  exists hx, hy, c. repeat split; try assumption.
  intros j v Hj Hv.
  apply list_elem_of_lookup in Hv as [p Hp].
  destruct (Forall2_lookup_r _ _ _ _ _ Hx Hp) as (a & Ha & Hxa).
  destruct (Forall2_lookup_l _ _ _ _ _ Hy Ha) as (w & Hw & Hya).
  assert (a = j) as ->.
  { destruct (lt_eq_lt_dec a j) as [[Hlt|Heq]|Hgt]; [exfalso | assumption | exfalso].
    - pose proof (increasing_lookup x a j v v Hinc Hlt Hxa Hj) as Hvv.
      now rewrite flt_irrefl in Hvv.
    - pose proof (increasing_lookup x j a v v Hinc Hgt Hj Hxa) as Hvv.
      now rewrite flt_irrefl in Hvv. }
  destruct (Hat j v Hj) as (cj & Hcj & Hint).
  rewrite (interp_at_sample hx hy Hhinc ltac:(lia) ltac:(lia) p v w Hp Hw)
    in Hint.
  injection Hint as <-. congruence.
Qed.

End Touches.

(** X6.  The continuum touches the spectrum at the hull.  When the window
    of the spectrum satisfies the hull preconditions, [continuum_removal]
    with type ["uh"] succeeds; the continuum and the ratio have one value
    per point of the window; and at every point of the window that is a
    point of the upper hull, the first and the last among them, the
    continuum is the windowed [y] itself. *)
Theorem continuum_touches_spectrum {F : Type} `{ScalarLaws F}
    `{!ScalarOrder F} (x y : list F)
    (left_outer_x left_inner_x right_inner_x right_outer_x : F) :
  let xw := List.filter (in_window left_inner_x right_inner_x) x in
  let yw :=
    map snd
      (List.filter (fun xy => in_window left_inner_x right_inner_x (fst xy))
         (zip x y)) in
  length x = length y ->
  valid_input xw yw ->
  exists hullx hully ratio_y continuum_y,
    upper_convex_hull xw yw = Ok (hullx, hully)
    /\ continuum_removal x y "uh"
         left_outer_x left_inner_x right_inner_x right_outer_x
       = Ok (xw, ratio_y, continuum_y)
    /\ length continuum_y = length xw
    /\ length ratio_y = length xw
    /\ (forall (j : nat) (v : F),
          xw !! j = Some v -> v ∈ hullx -> continuum_y !! j = yw !! j)
    /\ continuum_y !! 0 = yw !! 0
    /\ continuum_y !! (length xw - 1) = yw !! (length xw - 1).
Proof.
  intros xw yw Hlen Hvalid. pose proof Hvalid as (Hlw & Hn & Hinc).
  destruct (continuum_of_window xw yw Hvalid)
    as (hx & hy & c & Hhull & Hc & Hlc & Hat).
  exists hx, hy, (zip_with fdiv yw c), c.
  split; [assumption |]. split.
  { unfold continuum_removal. simpl String.eqb. cbv iota.
    rewrite window_flag_spec, mask_select_filter, bind_Ok.
    rewrite (mask_select_filter_zip _ x y Hlen), bind_Ok.
    fold xw yw. rewrite Hhull, bind_Ok, Hc, bind_Ok. reflexivity. }
  split; [assumption |].
  split; [rewrite length_zip_with; lia |].
  split; [assumption |].
  destruct (convex_hull_ends (fun t => t) xw yw Hvalid)
    as (hx' & hy' & Hhull' & Hh & _ & Hl & _).
  unfold upper_convex_hull in Hhull.
  rewrite Hhull in Hhull'. injection Hhull' as <- <-.
  destruct (lookup_lt_is_Some_2 xw 0 ltac:(lia)) as [v0 Hv0].
  destruct (lookup_lt_is_Some_2 xw (length xw - 1) ltac:(lia)) as [vn Hvn].
  split.
  - apply (Hat 0 v0 Hv0). apply list_elem_of_lookup. exists 0.
    rewrite <- head_lookup. congruence.
  - apply (Hat _ vn Hvn). apply list_elem_of_lookup.
    exists (pred (length hx)). rewrite <- last_lookup. congruence.
Qed.

Lemma continuum_touches_spectrum_witness :
  exists hullx hully ratio_y continuum_y,
    upper_convex_hull scenario_x scenario_y = Ok (hullx, hully)
    /\ continuum_removal (scenario_x ++ [7%float]) (scenario_y ++ [1%float])
         "uh" 0%float 0%float 4%float 9%float
       = Ok (scenario_x, ratio_y, continuum_y)
    /\ length continuum_y = 5
    /\ length ratio_y = 5
    /\ (forall (j : nat) (v : float),
          scenario_x !! j = Some v -> v ∈ hullx ->
          continuum_y !! j = scenario_y !! j)
    /\ continuum_y !! 0 = Some 0%float
    /\ continuum_y !! 4 = Some 0%float.
Proof.
  refine (continuum_touches_spectrum (F:=float)
            (scenario_x ++ [7%float]) (scenario_y ++ [1%float])
            0%float 0%float 4%float 9%float _ _).
  - reflexivity.
  - split; [reflexivity | split; [simpl; lia | reflexivity]].
Defined.

(** ** The continuum against the spectrum, on binary64 *)

Section Binary64Quotient.

Local Open Scope Z_scope.



End Binary64Quotient.





(** ** Small and empty windows *)

Section SmallWindow.

Context {F : Type} `{Scalar F}.

Lemma filter_zip_length (p : F -> bool) (x y : list F) :
  length x = length y ->
  length (map snd (List.filter (fun xy => p (fst xy)) (zip x y)))
  = length (List.filter p x).
Proof.
  revert y. induction x as [|v x IH]; intros [|w y] Hlen;
    try discriminate; [reflexivity |].
  simpl. destruct (p v); simpl; rewrite IH by (simpl in Hlen; lia);
    reflexivity.
Qed.

Lemma filter_none (p : F -> bool) (x : list F) :
  (forall v, p v = false) -> List.filter p x = [].
Proof.
  intros Hp. induction x as [|v x IH]; [reflexivity |].
  simpl. now rewrite Hp.
Qed.

Lemma filter_all (p : F -> bool) (x : list F) :
  Forall (fun v => p v = true) x -> List.filter p x = x.
Proof.
  induction 1 as [|v x Hv _ IH]; [reflexivity |].
  simpl. now rewrite Hv, IH.
Qed.

Lemma filter_zip_all (p : F -> bool) (x y : list F) :
  length x = length y -> Forall (fun v => p v = true) x ->
  map snd (List.filter (fun xy => p (fst xy)) (zip x y)) = y.
Proof.
  intros Hlen Hall. revert y Hlen.
  induction Hall as [|v x Hv _ IH]; intros [|w y] Hlen; try discriminate;
    [reflexivity |].
  simpl. rewrite Hv. simpl. rewrite IH by (simpl in Hlen; lia). reflexivity.
Qed.

(** The pipeline fails with the size error of the builder exactly on a
    window of at most two points. *)
Lemma continuum_removal_SizeError (x y : list F)
    (left_outer_x left_inner_x right_inner_x right_outer_x : F) :
  length x = length y ->
  (continuum_removal x y "uh"
     left_outer_x left_inner_x right_inner_x right_outer_x
   = Raise SizeError
   <-> length (List.filter (in_window left_inner_x right_inner_x) x) <= 2).
Proof.
  intros Hlen. unfold continuum_removal. simpl String.eqb. cbv iota.
  rewrite window_flag_spec, mask_select_filter, bind_Ok.
  rewrite (mask_select_filter_zip _ x y Hlen), bind_Ok.
  pose proof (filter_zip_length (in_window left_inner_x right_inner_x) x y Hlen)
    as Hl.
  set (xw := List.filter _ x) in *. set (yw := map snd _) in *.
  destruct (convex_hull_cases (fun t => t) xw yw)
    as [[Hne _]|[(_ & Hle & Hh)|(_ & Hgt & Hh)]];
    fold (upper_convex_hull xw yw) in *.
  - congruence.
  - rewrite Hh. simpl. tauto.
  - split; [|lia]. intros Hc. exfalso.
    destruct (upper_convex_hull xw yw) as [[hullx hully]|e].
    + rewrite bind_Ok in Hc.
      pose proof (interp_raises xw hullx hully) as Hi.
      destruct (interp xw hullx hully) as [c|e]; [discriminate |].
      injection Hc as ->. now apply arith_or_index_not_ValueError in Hi.
    + injection Hc as ->. now apply arith_or_index_not_ValueError in Hh.
Qed.

End SmallWindow.

(** X7.  With type ["uh"] and [x], [y] of one length, [continuum_removal]
    fails with the size error of the hull builder exactly when at most two
    points of [x] lie between the inner bounds; so it does on an empty
    window. *)
Theorem continuum_window_too_small {F : Type} `{Scalar F} (x y : list F)
    (left_outer_x left_inner_x right_inner_x right_outer_x : F) :
  length x = length y ->
  (continuum_removal x y "uh"
     left_outer_x left_inner_x right_inner_x right_outer_x
   = Raise SizeError
   <-> length (List.filter (in_window left_inner_x right_inner_x) x) <= 2).
Proof. apply continuum_removal_SizeError. Qed.

Lemma continuum_window_too_small_witness :
  continuum_removal scenario_x scenario_y "uh" 0%float 3%float 4%float 9%float
  = Raise SizeError.
Proof.
  apply (continuum_window_too_small (F:=float) scenario_x scenario_y
           0%float 3%float 4%float 9%float).
  - reflexivity.
  - simpl. lia.
Defined.

(** A NaN compares with nothing. *)
Lemma float_leb_nan (v : float) :
  PrimFloat.leb nan v = false /\ PrimFloat.leb v nan = false.
Proof.
  rewrite !FloatAxioms.leb_spec. change (Prim2SF nan) with S754_nan.
  unfold SFleb. split; [reflexivity |].
  now destruct (Prim2SF v).
Qed.

(** X8.  A NaN inner bound empties the window: on binary64, with [x] and
    [y] of one length, [continuum_removal] with a NaN [left_inner_x] or a
    NaN [right_inner_x] fails with the size error, whatever the
    spectrum. *)
Theorem continuum_nan_bound (x y : list float)
    (left_outer_x inner_x right_outer_x : float) :
  length x = length y ->
  continuum_removal x y "uh" left_outer_x nan inner_x right_outer_x
  = Raise SizeError
  /\ continuum_removal x y "uh" left_outer_x inner_x nan right_outer_x
     = Raise SizeError.
Proof.
  intros Hlen.
  split; apply (continuum_removal_SizeError x y _ _ _ _ Hlen);
    rewrite filter_none; simpl; try lia; intros v; unfold in_window; simpl.
  - now rewrite (proj1 (float_leb_nan v)).
  - rewrite (proj2 (float_leb_nan v)). apply andb_false_r.
Qed.

Lemma continuum_nan_bound_witness :
  continuum_removal scenario_x scenario_y "uh" 0%float nan 4%float 0%float
  = Raise SizeError
  /\ continuum_removal scenario_x scenario_y "uh" 0%float 4%float nan 0%float
     = Raise SizeError.
Proof.
  apply (continuum_nan_bound scenario_x scenario_y 0%float 4%float 0%float).
  reflexivity.
Defined.

(** ** The viewer's plot *)

(** Between the infinite bounds lies every number but NaN. *)
Lemma in_window_infinite (v : float) :
  in_window neg_infinity infinity v = negb (PrimFloat.is_nan v).
Proof.
  unfold in_window, PrimFloat.is_nan. simpl.
  rewrite !FloatAxioms.leb_spec, FloatAxioms.eqb_spec.
  change (Prim2SF neg_infinity) with (S754_infinity true).
  change (Prim2SF infinity) with (S754_infinity false).
  unfold SFleb, SFeqb.
  destruct (Prim2SF v) as [s|s| |s m e] eqn:Hv; try reflexivity.
  - now destruct s.
  - rewrite (SFcompare_refl (S754_finite s m e)) by discriminate.
    reflexivity.
Qed.

Lemma increasing_in_window_infinite (x : list float) :
  increasing x = true -> 2 <= length x ->
  Forall (fun v => in_window neg_infinity infinity v = true) x.
Proof.
  intros Hinc Hn. apply Forall_lookup. intros p v Hp.
  rewrite in_window_infinite.
  destruct (increasing_compares x p v Hinc Hn Hp) as (_ & _ & Hnan).
  simpl in Hnan. now rewrite Hnan.
Qed.

(** X9.  The viewer's call windows nothing away.  [_plot_spectrum] calls
    [continuum_removal(x, y, 'uh', -inf, -inf, inf, inf)]; for a spectrum
    that satisfies the hull preconditions this call succeeds and returns
    [x] itself, with one ratio per point, which is [y] divided by itself at
    the first and at the last point. *)
Theorem viewer_call_keeps_whole_spectrum (x y : list float) :
  valid_input x y ->
  exists plot_y continuum_y yfirst ylast,
    continuum_removal x y "uh" neg_infinity neg_infinity infinity infinity
    = Ok (x, plot_y, continuum_y)
    /\ length plot_y = length x
    /\ y !! 0 = Some yfirst
    /\ y !! (length x - 1) = Some ylast
    /\ plot_y !! 0 = Some (yfirst / yfirst)%float
    /\ plot_y !! (length x - 1) = Some (ylast / ylast)%float.
Proof.
  intros Hvalid.
  pose proof Hvalid as (Hlen & Hn & Hinc).
  pose proof (increasing_in_window_infinite x Hinc ltac:(lia)) as Hall.
  destruct (continuum_of_window x y Hvalid)
    as (hx & hy & c & Hhull & Hc & Hlc & Hat).
  destruct (convex_hull_ends (fun t => t) x y Hvalid)
    as (hx' & hy' & Hhull' & Hh & _ & Hl & _).
  pose proof Hhull as Hhull2. unfold upper_convex_hull in Hhull2.
  rewrite Hhull2 in Hhull'. injection Hhull' as <- <-.
  destruct (lookup_lt_is_Some_2 x 0 ltac:(lia)) as [v0 Hv0].
  destruct (lookup_lt_is_Some_2 x (length x - 1) ltac:(lia)) as [vn Hvn].
  destruct (lookup_lt_is_Some_2 y 0 ltac:(lia)) as [w0 Hw0].
  destruct (lookup_lt_is_Some_2 y (length x - 1) ltac:(lia)) as [wn Hwn].
  assert (c !! 0 = Some w0) as Hc0.
  { rewrite <- Hw0. apply (Hat 0 v0 Hv0). apply list_elem_of_lookup.
    exists 0. rewrite <- head_lookup. congruence. }
  assert (c !! (length x - 1) = Some wn) as Hcn.
  { rewrite <- Hwn. apply (Hat _ vn Hvn). apply list_elem_of_lookup.
    exists (pred (length hx)). rewrite <- last_lookup. congruence. }
  exists (zip_with PrimFloat.div y c), c, w0, wn.
  split; [|split; [rewrite length_zip_with; lia |]].
  - unfold continuum_removal. simpl String.eqb. cbv iota.
    rewrite window_flag_spec, mask_select_filter, bind_Ok.
    rewrite (mask_select_filter_zip _ x y Hlen), bind_Ok.
    rewrite (filter_all _ x Hall), (filter_zip_all _ x y Hlen Hall).
    rewrite Hhull, bind_Ok, Hc, !bind_Ok. reflexivity.
  - repeat split; try assumption.
    + rewrite lookup_zip_with, Hw0, Hc0. reflexivity.
    + rewrite lookup_zip_with, Hwn, Hcn. reflexivity.
Qed.

Lemma viewer_call_keeps_whole_spectrum_witness :
  exists plot_y continuum_y yfirst ylast,
    continuum_removal scenario_x [1; 2; 1; 2; 1]%float "uh"
      neg_infinity neg_infinity infinity infinity
    = Ok (scenario_x, plot_y, continuum_y)
    /\ length plot_y = 5
    /\ [1; 2; 1; 2; 1]%float !! 0 = Some yfirst
    /\ [1; 2; 1; 2; 1]%float !! 4 = Some ylast
    /\ plot_y !! 0 = Some (yfirst / yfirst)%float
    /\ plot_y !! 4 = Some (ylast / ylast)%float.
Proof.
  refine (viewer_call_keeps_whole_spectrum scenario_x [1; 2; 1; 2; 1]%float _).
  split; [reflexivity | split; [simpl; lia | reflexivity]].
Defined.

(** ** The library spectrum *)

Section MaskSelect.

Context {F : Type} `{Scalar F}.

Lemma mask_select_length (flag : list bool) (a r : list F) :
  mask_select flag a = Ok r ->
  length flag = length a
  /\ length r = length (List.filter (fun b : bool => b) flag).
Proof.
  revert a r. induction flag as [|b flag IH]; intros [|v a] r Hr;
    try discriminate.
  - injection Hr as <-. auto.
  - simpl in Hr. apply bind_Ok_inv in Hr as (r' & Hr' & Hr).
    injection Hr as <-. destruct (IH _ _ Hr') as [Hl Hlr].
    split; [simpl; lia |]. destruct b; simpl; lia.
Qed.

Lemma mask_select_raises_index (flag : list bool) (a : list F) :
  raises_only (eq IndexError) (mask_select flag a).
Proof.
  revert a. induction flag as [|b flag IH]; intros [|v a]; simpl;
    try exact I; try reflexivity.
  apply raises_only_bind; [apply IH | intros r; exact I].
Qed.

End MaskSelect.

Lemma first_row_raises (rows : list sample_row) :
  raises_only (eq IndexError) (first_row rows).
Proof. destruct rows; simpl; auto. Qed.

Lemma called_raises {A : Type} (db : usgs_database) (c : library_call)
    (answer : A) :
  raises_only (index_or_library db) (called db c answer).
Proof.
  unfold called. destruct (library_raises db c) as [e|] eqn:Hc; [|exact I].
  right. now exists c.
Qed.

Lemma called_Ok {A : Type} (db : usgs_database) (c : library_call)
    (answer : A) :
  library_raises db c = None -> called db c answer = Ok answer.
Proof. unfold called. now intros ->. Qed.

Lemma called_Ok_inv {A : Type} (db : usgs_database) (c : library_call)
    (answer a : A) :
  called db c answer = Ok a -> a = answer.
Proof.
  unfold called. destruct (library_raises db c); [discriminate |].
  now intros [= <-].
Qed.

Lemma index_raises_library {A : Type} (db : usgs_database) (m : result A) :
  raises_only (eq IndexError) m -> raises_only (index_or_library db) m.
Proof. apply raises_only_impl. intros e <-. now left. Qed.

(** Past its check of the arguments the function fails on an index of its
    own or where the library fails. *)
Lemma get_spectrum_raises (db : usgs_database) (search_str : string)
    (SampleID : option Z) :
  (String.length search_str =? 0)
  && match SampleID with None => true | Some _ => false end = false ->
  raises_only (index_or_library db)
    (get_usgs_splib07a_spectrum db search_str SampleID).
Proof.
  intros Hargs. unfold get_usgs_splib07a_spectrum. rewrite Hargs.
  apply raises_only_bind; [apply called_raises | intros _].
  apply raises_only_bind.
  - destruct SampleID as [i|];
      (apply raises_only_bind; [apply called_raises | intros rows];
       apply raises_only_bind;
         [apply index_raises_library, first_row_raises | intros row; exact I]).
  - intros [[[lib_name i] Description] Spectrometer].
    apply raises_only_bind; [apply called_raises | intros [x y]].
    apply raises_only_bind;
      [apply index_raises_library, mask_select_raises_index | intros x'].
    apply raises_only_bind;
      [apply index_raises_library, mask_select_raises_index | intros y'].
    apply raises_only_bind; [apply called_raises | intros [|blob rows]];
      [exact I |].
    apply raises_only_bind; [apply called_raises | intros fwhm].
    apply raises_only_bind;
      [apply index_raises_library, mask_select_raises_index | intros fwhm'].
    exact I.
Qed.

Lemma string_length_0 (s : string) :
  (String.length s =? 0) = true <-> s = ""%string.
Proof.
  rewrite Nat.eqb_eq. destruct s; simpl; split; congruence || discriminate.
Qed.

Lemma wrong_arguments_iff (search_str : string) (SampleID : option Z) :
  (String.length search_str =? 0)
  && match SampleID with None => true | Some _ => false end = true
  <-> search_str = ""%string /\ SampleID = None.
Proof.
  rewrite andb_true_iff, string_length_0.
  destruct SampleID; split; intros [Hs Hid]; (split; [assumption |]);
    congruence.
Qed.

(** X10.  The failures of [get_usgs_splib07a_spectrum].  With an empty
    search string and no sample id it raises its ValueError, whatever the
    library holds and before any call into it.  Otherwise an exception of
    opening the library is passed on, and whatever the function raises is
    the exception of one of its calls into the library or an IndexError of
    its own; this it raises when the query, by description or by sample
    id, returns no row.  So, unless the library itself raises a ValueError
    with this very message, the function raises it exactly on those
    arguments. *)
Theorem library_spectrum_errors (db : usgs_database) (search_str : string)
    (SampleID : option Z) :
  (search_str = ""%string /\ SampleID = None ->
   get_usgs_splib07a_spectrum db search_str SampleID = Raise WrongArguments)
  /\ (~ (search_str = ""%string /\ SampleID = None) ->
      raises_only (index_or_library db)
        (get_usgs_splib07a_spectrum db search_str SampleID)
      /\ forall e, library_raises db OpenLibrary = Some e ->
           get_usgs_splib07a_spectrum db search_str SampleID = Raise e)
  /\ ((forall c, library_raises db c <> Some WrongArguments) ->
      get_usgs_splib07a_spectrum db search_str SampleID = Raise WrongArguments
      <-> search_str = ""%string /\ SampleID = None)
  /\ (search_str <> ""%string ->
      library_raises db OpenLibrary = None ->
      library_raises db (QueryDescription search_str) = None ->
      samples_like db search_str = [] ->
      get_usgs_splib07a_spectrum db search_str None = Raise IndexError)
  /\ (forall i,
        library_raises db OpenLibrary = None ->
        library_raises db (QuerySampleID i) = None ->
        samples_with_id db i = [] ->
        get_usgs_splib07a_spectrum db search_str (Some i) = Raise IndexError).
Proof.
  pose proof (get_spectrum_raises db search_str SampleID) as Hraises.
  pose proof (wrong_arguments_iff search_str SampleID) as Hiff.
  assert (search_str = ""%string /\ SampleID = None ->
          get_usgs_splib07a_spectrum db search_str SampleID
          = Raise WrongArguments) as Hwrong.
  { intros Hargs. apply Hiff in Hargs.
    unfold get_usgs_splib07a_spectrum. now rewrite Hargs. }
  assert (~ (search_str = ""%string /\ SampleID = None) ->
          (String.length search_str =? 0)
          && match SampleID with None => true | Some _ => false end = false)
    as Hfine.
  { intros Hargs. apply not_true_is_false. now rewrite Hiff. }
  split; [exact Hwrong |].
  split; [|split; [|split]].
  - intros Hargs. split; [exact (Hraises (Hfine Hargs)) |].
    intros e He. unfold get_usgs_splib07a_spectrum, called.
    now rewrite (Hfine Hargs), He.
  - intros Hlib. split; [|exact Hwrong].
    intros Hget.
    destruct ((String.length search_str =? 0)
              && match SampleID with None => true | Some _ => false end)
      eqn:Hargs; [now apply Hiff |].
    specialize (Hraises eq_refl). rewrite Hget in Hraises.
    destruct Hraises as [Hindex | [c Hc]]; [discriminate |].
    now destruct (Hlib c).
  - intros Hne Hopen Hquery Hrows. unfold get_usgs_splib07a_spectrum.
    destruct (String.length search_str =? 0) eqn:Hs;
      [now apply string_length_0 in Hs |].
    simpl. rewrite !called_Ok by assumption.
    rewrite !bind_Ok, Hrows. reflexivity.
  - intros i Hopen Hquery Hrows. unfold get_usgs_splib07a_spectrum.
    rewrite andb_false_r. rewrite !called_Ok by assumption.
    rewrite !bind_Ok, Hrows. reflexivity.
Qed.

Lemma library_spectrum_errors_witness :
  get_usgs_splib07a_spectrum
    (UsgsDatabase
       (fun c => match c with
                 | GetSpectrum _ => Some (LibraryError "OverflowError")
                 | _ => None
                 end)
       (fun _ => []) (fun _ => []) (fun _ => ([], [])) (fun _ => []))
    "olivine" None
  = Raise IndexError.
Proof.
  apply (library_spectrum_errors
           (UsgsDatabase
              (fun c => match c with
                        | GetSpectrum _ => Some (LibraryError "OverflowError")
                        | _ => None
                        end)
              (fun _ => []) (fun _ => []) (fun _ => ([], [])) (fun _ => []))
           "olivine" None).
  - discriminate.
  - reflexivity.
  - reflexivity.
  - reflexivity.
Defined.

Lemma filter_Forall {A : Type} (p : A -> bool) (l : list A) :
  Forall (fun v => p v = true) (List.filter p l).
Proof.
  induction l as [|v l IH]; [constructor |].
  simpl. destruct (p v) eqn:Hv; [constructor |]; assumption.
Qed.

(** X11.  What [get_usgs_splib07a_spectrum] returns.  On success the three
    arrays have one length; [y] is the part of the stored reflectance that
    is above zero, so every returned [y] is positive; a sample id that was
    given is returned as it was given; and when a warning was emitted, the
    bandpass array is all NaN. *)
Theorem library_spectrum_invariants (db : usgs_database)
    (search_str : string) (SampleID : option Z) (r : library_spectrum) :
  get_usgs_splib07a_spectrum db search_str SampleID = Ok r ->
  length (sp_y r) = length (sp_x r)
  /\ length (sp_fwhm r) = length (sp_x r)
  /\ sp_y r
     = List.filter (fun v => PrimFloat.ltb 0 v)
         (snd (db_get_spectrum db (sp_sample_id r)))
  /\ Forall (fun v => PrimFloat.ltb 0 v = true) (sp_y r)
  /\ (forall i, SampleID = Some i -> sp_sample_id r = i)
  /\ (forall w, sp_warning r = Some w ->
        Forall (fun v => PrimFloat.is_nan v = true) (sp_fwhm r)).
Proof.
  intros Hget. unfold get_usgs_splib07a_spectrum in Hget.
  destruct (_ && _); [discriminate |].
  apply bind_Ok_inv in Hget as (u & _ & Hget).
  apply bind_Ok_inv in Hget
    as ([[[lib_name i] Description] Spectrometer] & Hrow & Hget).
  assert (forall i', SampleID = Some i' -> i = i') as Hid.
  { intros i' ->. apply bind_Ok_inv in Hrow as (rows & _ & Hrow).
    apply bind_Ok_inv in Hrow as (row & _ & Hrow).
    now injection Hrow as _ <- _ _. }
  apply bind_Ok_inv in Hget as ([x y] & Hsp & Hget).
  apply called_Ok_inv in Hsp.
  apply bind_Ok_inv in Hget as (x' & Hx & Hget).
  rewrite mask_select_filter, bind_Ok in Hget.
  destruct (mask_select_length _ _ _ Hx) as [_ Hlx].
  pose proof (mask_select_filter (fun v => PrimFloat.ltb 0 v) y) as Hy.
  destruct (mask_select_length _ _ _ Hy) as [_ Hly].
  apply bind_Ok_inv in Hget as ([|blob rows] & _ & Hget).
  - injection Hget as <-. simpl. rewrite <- Hsp. simpl.
    split; [congruence |].
    split; [now rewrite length_replicate |].
    split; [reflexivity |].
    split; [apply filter_Forall |].
    split; [assumption |].
    intros w _. apply Forall_forall. intros v Hv.
    apply elem_of_replicate in Hv as [-> _]. reflexivity.
  - apply bind_Ok_inv in Hget as (fwhm0 & _ & Hget).
    apply bind_Ok_inv in Hget as (fwhm & Hf & Hget).
    injection Hget as <-. simpl. rewrite <- Hsp. simpl.
    destruct (mask_select_length _ _ _ Hf) as [_ Hlf].
    split; [congruence |].
    split; [congruence |].
    split; [reflexivity |].
    split; [apply filter_Forall |].
    split; [assumption |].
    intros w Hw. discriminate.
Qed.

Lemma library_spectrum_invariants_witness :
  length [0.5; 0.25]%float = length [1; 4]%float
  /\ length [nan; nan]%float = length [1; 4]%float.
Proof.
  pose (db := UsgsDatabase (fun _ => None) (fun _ => [])
         (fun i => [SampleRow "splib07a" i "Olivine GDS70" "ASDFR"])
         (fun _ => ([1; 2; 3; 4]%float, [0.5; -1; 0; 0.25]%float))
         (fun _ => [])).
  pose (r := LibrarySpectrum [1; 4]%float [0.5; 0.25]%float [nan; nan]%float
               "Olivine GDS70" 7%Z "splib07a"
               (Some "Bandpass not found for Olivine GDS70 in splib07a"%string)).
  destruct (library_spectrum_invariants db "" (Some 7%Z) r eq_refl)
    as (Hy & Hf & _).
  exact (conj Hy Hf).
Defined.

(** ** The viewer's spectrum *)

Section MaskBySecond.

Context {F : Type} `{Scalar F}.

Lemma mask_select_first (p : F -> bool) (x y : list F) :
  length x = length y ->
  mask_select (map p y) x
  = Ok (map fst (List.filter (fun xy => p (snd xy)) (zip x y))).
Proof.
  revert y. induction x as [|v x IH]; intros [|w y] Hlen;
    try discriminate; [reflexivity |].
  simpl. rewrite IH by (simpl in Hlen; lia). rewrite bind_Ok.
  now destruct (p w).
Qed.

Lemma mask_select_second (p : F -> bool) (x y : list F) :
  length x = length y ->
  mask_select (map p y) y
  = Ok (map snd (List.filter (fun xy => p (snd xy)) (zip x y))).
Proof.
  revert y. induction x as [|v x IH]; intros [|w y] Hlen;
    try discriminate; [reflexivity |].
  simpl. rewrite IH by (simpl in Hlen; lia). rewrite bind_Ok.
  now destruct (p w).
Qed.

Lemma mask_select_mismatch (flag : list bool) (a : list F) :
  length flag <> length a -> mask_select flag a = Raise IndexError.
Proof.
  revert a. induction flag as [|b flag IH]; intros [|v a] Hne;
    try reflexivity; [now contradict Hne |].
  simpl. rewrite IH by (simpl in Hne; lia). reflexivity.
Qed.

End MaskBySecond.

(** X12.  The spectrum the viewer keeps.  [_load_and_plot_spectrum] keeps
    exactly the points [(x, y)] of the stored spectrum with [y >= 0], in
    their order and still paired, so no kept [y] is negative or NaN; when
    the stored [x] and [y] differ in length it keeps nothing and fails on
    the index. *)
Theorem viewer_keeps_nonnegative (x y : list float) :
  let kept := List.filter (fun xy => PrimFloat.leb 0 (snd xy)) (zip x y) in
  (length x = length y ->
   nonnegative_part x y = Ok (map fst kept, map snd kept)
   /\ Forall (fun v => PrimFloat.leb 0 v = true
                       /\ PrimFloat.is_nan v = false) (map snd kept))
  /\ (length x <> length y -> nonnegative_part x y = Raise IndexError).
Proof.
  intros kept. unfold nonnegative_part. split.
  - intros Hlen.
    rewrite (mask_select_first _ x y Hlen), bind_Ok.
    rewrite (mask_select_second _ x y Hlen), bind_Ok.
    split; [reflexivity |].
    apply Forall_fmap.
    eapply Forall_impl;
      [exact (filter_Forall (fun xy => PrimFloat.leb 0 (snd xy)) (zip x y)) |].
    intros [v w] Hw. simpl in *. split; [assumption |].
    unfold PrimFloat.is_nan. rewrite FloatAxioms.eqb_spec.
    rewrite FloatAxioms.leb_spec in Hw.
    change (Prim2SF 0%float) with (S754_zero false) in Hw.
    unfold SFeqb. rewrite SFcompare_refl; [reflexivity |].
    intros Hnan. rewrite Hnan in Hw. discriminate.
  - intros Hne. rewrite (mask_select_mismatch _ x); [reflexivity |].
    rewrite length_map. congruence.
Qed.

Lemma viewer_keeps_nonnegative_witness :
  nonnegative_part [1; 2; 3]%float [0.5; -1; 0]%float
  = Ok ([1; 3]%float, [0.5; 0]%float).
Proof.
  refine (proj1 (proj1 (viewer_keeps_nonnegative
                          [1; 2; 3]%float [0.5; -1; 0]%float) eq_refl)).
Defined.

(** ** The viewer's list of entries *)

#[export] Instance string_le_total : Total string_le.
Proof. intros s1 s2. apply String.leb_total. Qed.

Section LoadDatabase.

Let add_row (acc : list string * gmap string Z) (row : sample_row) :=
  (acc.1 ++ [entry_text row], <[entry_text row := row_sample_id row]> acc.2).

Lemma load_fold_entries (rows : list sample_row)
    (acc : list string * gmap string Z) :
  (foldl add_row acc rows).1 = acc.1 ++ (entry_text <$> rows).
Proof.
  revert acc. induction rows as [|row rows IH]; intros acc; simpl.
  - now rewrite app_nil_r.
  - rewrite IH. simpl. now rewrite <- app_assoc.
Qed.

(** An id in the dictionary comes from a row with this text. *)
Lemma load_fold_lookup (rows : list sample_row)
    (acc : list string * gmap string Z) (e : string) (id : Z) :
  (foldl add_row acc rows).2 !! e = Some id ->
  acc.2 !! e = Some id
  \/ exists row, row ∈ rows /\ entry_text row = e /\ row_sample_id row = id.
Proof.
  revert acc. induction rows as [|row rows IH]; intros acc Hid; simpl in Hid;
    [now left |].
  destruct (IH _ Hid) as [Hacc|(row' & Hin & He & Hrow)].
  - simpl in Hacc. destruct (decide (entry_text row = e)) as [He|Hne].
    + rewrite He, lookup_insert_eq in Hacc. injection Hacc as <-.
      right. exists row. split; [left | auto].
    + rewrite lookup_insert_ne in Hacc by assumption. now left.
  - right. exists row'. split; [now right | auto].
Qed.

(** Every row leaves its text in the dictionary. *)
Lemma load_fold_is_Some (rows : list sample_row)
    (acc : list string * gmap string Z) (e : string) :
  is_Some (acc.2 !! e) \/ (exists row, row ∈ rows /\ entry_text row = e) ->
  is_Some ((foldl add_row acc rows).2 !! e).
Proof.
  revert acc. induction rows as [|row rows IH]; intros acc Hin; simpl.
  - destruct Hin as [Hacc|(row & Hin & _)]; [assumption |].
    now apply elem_of_nil in Hin.
  - apply IH. simpl. destruct (decide (entry_text row = e)) as [He|Hne].
    + left. rewrite He, lookup_insert_eq. eauto.
    + rewrite lookup_insert_ne by assumption.
      destruct Hin as [Hacc|(row' & Hin & He)]; [now left |].
      apply elem_of_cons in Hin as [->|Hin]; [contradiction |].
      right. eauto.
Qed.

(** X13.  The list the viewer shows.  After [_load_database], [entries]
    holds the texts of the rows of the query, one per row, in sorted
    order; and every entry is a key of [sample_ids], under which is the
    sample id of a row shown with this very text. *)
Theorem viewer_entries (query_results : list sample_row) :
  let '(entries, sample_ids) := load_database query_results in
  entries ≡ₚ (entry_text <$> query_results)
  /\ length entries = length query_results
  /\ Sorted string_le entries
  /\ forall e, e ∈ entries ->
       exists row,
         row ∈ query_results /\ entry_text row = e
         /\ sample_ids !! e = Some (row_sample_id row).
Proof.
  unfold load_database. fold add_row.
  pose proof (load_fold_entries query_results ([], ∅)) as Hentries.
  pose proof (load_fold_lookup query_results ([], ∅)) as Hlookup.
  pose proof (load_fold_is_Some query_results ([], ∅)) as Hsome.
  destruct (foldl add_row ([], ∅) query_results) as [entries sample_ids].
  simpl in *. subst entries.
  assert (merge_sort string_le (entry_text <$> query_results)
          ≡ₚ (entry_text <$> query_results)) as Hperm
    by apply merge_sort_Permutation.
  split; [assumption |].
  split; [now rewrite Hperm, length_fmap |].
  split; [apply Sorted_merge_sort, _ |].
  intros e He. rewrite Hperm in He.
  apply list_elem_of_fmap in He as (row0 & -> & Hrow0).
  destruct (Hsome (entry_text row0)) as [id Hid]; [right; eauto |].
  destruct (Hlookup _ _ Hid) as [Hempty|(row & Hin & He & Hrow)].
  - now rewrite lookup_empty in Hempty.
  - exists row. rewrite Hid, Hrow. auto.
Qed.

End LoadDatabase.
